(** * TravelJournal: a shallow embedding of [src/components/TravelJournal.tsx]

    The component keeps a flat list of journal entries in React state,
    mirrors it into [localStorage] under the key ["journalEntries"], and
    offers create / edit / delete handlers, a location autocomplete and a
    login gate.

    Modelling choices.
    - A JavaScript string is the list of its UTF-16 code units, so that
      [length] is JavaScript's [.length].  The texts that the source only
      shows (the messages of [alert], [confirm] and [console.error], the
      labels of buttons) and the two keys of the storage stay Rocq strings.
    - A JavaScript number that the component handles is an integer (an array
      index, [Date.now()], [place_id]); it is a [Z].
    - [JSON.stringify] and [JSON.parse] follow ECMA-262 on the values above:
      [QuoteJSONString] with its escapes, a lexer and a recursive-descent
      parser.
    - [localStorage] is a finite map from keys to strings; [setItem] always
      succeeds.
    - A handler is a closure over the state of the render that created it.  It
      queues state updates and performs effects; the model threads the queued
      state, the storage and the trace of effects through a small state
      monad, and passes what the environment answers ([Date.now()], the
      [confirm] dialog, the network) as arguments.
    - The state cells hold what the code puts into them at run time.  The
      cell [newEntry] is declared with the type of an entry, but
      [handleEditEntry] stores [entries[index]] in it, which is [undefined]
      outside the list; the model keeps that value and what the other
      handlers make of it. *)

From Stdlib Require Import ZArith Lia Ascii String.
From stdpp Require Import gmap strings list fin_maps pretty.

Local Open Scope string_scope.
Local Open Scope Z_scope.
Local Open Scope list_scope.

(** ** JavaScript strings *)

(** A string is the list of its UTF-16 code units. *)
Abbreviation jsstring := (list N) (only parsing).

(** The code unit of an ASCII character. *)
Definition char (c : ascii) : N := N_of_ascii c.

(** A string of ASCII characters, as the source writes it. *)
Fixpoint js (s : string) : jsstring :=
  match s with
  | EmptyString => []
  | String c s' => char c :: js s'
  end.

(** Truthiness of a string: [""] is the only falsy one. *)
Definition truthy (s : jsstring) : bool :=
  match s with
  | [] => false
  | _ :: _ => true
  end.

(** ** JSON, as [JSON.stringify] and [JSON.parse] see it *)

(** The values [JSON.parse] can return.  A number is an integer here, of
    magnitude below 2^53 and so written with its decimal digits.  An object
    is the list of its own properties in creation order. *)
#[local] Unset Elimination Schemes.
Inductive JsValue :=
| JNull
| JBool (b : bool)
| JNum (n : Z)
| JStr (s : jsstring)
| JArr (items : list JsValue)
| JObj (props : list (jsstring * JsValue)).
#[local] Set Elimination Schemes.

Definition QUOTE : N := 34%N.
Definition BACKSLASH : N := 92%N.

(** The lowercase hexadecimal digit of [n < 16]. *)
Definition hex_digit (n : N) : N :=
  if (n <? 10)%N then (48 + n)%N else (87 + n)%N.

(** [UnicodeEscape]: a backslash, [u] and four lowercase hexadecimal digits. *)
Definition UnicodeEscape (c : N) : jsstring :=
  [BACKSLASH; char "u";
   hex_digit ((c / 4096) mod 16); hex_digit ((c / 256) mod 16);
   hex_digit ((c / 16) mod 16); hex_digit (c mod 16)]%N.

Definition is_leading_surrogate (c : N) : bool :=
  (55296 <=? c)%N && (c <=? 56319)%N.

Definition is_trailing_surrogate (c : N) : bool :=
  (56320 <=? c)%N && (c <=? 57343)%N.

(** One code point of [QuoteJSONString] that is a single code unit. *)
Definition quote_unit (c : N) : jsstring :=
  if (c =? 8)%N then [BACKSLASH; char "b"]
  else if (c =? 9)%N then [BACKSLASH; char "t"]
  else if (c =? 10)%N then [BACKSLASH; char "n"]
  else if (c =? 12)%N then [BACKSLASH; char "f"]
  else if (c =? 13)%N then [BACKSLASH; char "r"]
  else if (c =? QUOTE)%N then [BACKSLASH; QUOTE]
  else if (c =? BACKSLASH)%N then [BACKSLASH; BACKSLASH]
  else if (c <? 32)%N || is_leading_surrogate c || is_trailing_surrogate c
       then UnicodeEscape c
  else [c].

(** The code points of the string in turn: a leading surrogate followed by a
    trailing one is one code point and is written as it is; a surrogate on
    its own is escaped. *)
Fixpoint quote_units (s : jsstring) : jsstring :=
  match s with
  | [] => []
  | c :: s' =>
      match s' with
      | d :: s'' =>
          if is_leading_surrogate c && is_trailing_surrogate d
          then c :: d :: quote_units s''
          else quote_unit c ++ quote_units s'
      | [] => quote_unit c
      end
  end.

Definition QuoteJSONString (s : jsstring) : jsstring :=
  QUOTE :: quote_units s ++ [QUOTE].

(** [Number::toString] on an integer: its decimal digits. *)
Definition Number_toString (n : Z) : jsstring := js (pretty n).

(** The elements of an array or the members of an object, separated by
    commas: the first one, then a comma before each further one. *)
Definition comma_tail (l : list jsstring) : jsstring :=
  foldr (λ y acc, char "," :: y ++ acc) [] l.

Definition join_comma (l : list jsstring) : jsstring :=
  match l with
  | [] => []
  | x :: l' => x ++ comma_tail l'
  end.

(** [JSON.stringify(value)] without a replacer or a gap. *)
Fixpoint JSON_stringify (v : JsValue) : jsstring :=
  match v with
  | JNull => js "null"
  | JBool true => js "true"
  | JBool false => js "false"
  | JNum n => Number_toString n
  | JStr s => QuoteJSONString s
  | JArr items =>
      char "[" :: join_comma (map JSON_stringify items) ++ [char "]"]
  | JObj props =>
      char "{"
        :: join_comma
             (map (λ p, QuoteJSONString (fst p)
                          ++ char ":" :: JSON_stringify (snd p))
                  props)
        ++ [char "}"]
  end.

(** *** [JSON.parse]: the lexer *)

Inductive Token :=
| TLBracket | TRBracket | TLBrace | TRBrace | TComma | TColon
| TNull | TTrue | TFalse
| TNum (n : Z)
| TStr (s : jsstring).

(** Where the lexer is between two code units. *)
Inductive Mode :=
| Default
| Lit (rest : jsstring) (t : Token)  (* in null, true or false; [rest] is due *)
| Minus                              (* after a minus sign *)
| Zero (neg : bool)                  (* after the single digit 0 *)
| Int (neg : bool) (n : N)           (* in a run of digits not starting by 0 *)
| Str (acc : jsstring)               (* in a string; [acc] is what was read *)
| Esc (acc : jsstring)               (* after a backslash *)
| Hex (acc : jsstring) (k : nat) (n : N). (* after backslash-u and k digits *)

Definition digit_of (c : N) : option N :=
  if (48 <=? c)%N && (c <=? 57)%N then Some (c - 48)%N else None.

Definition hex_value (c : N) : option N :=
  if (48 <=? c)%N && (c <=? 57)%N then Some (c - 48)%N
  else if (97 <=? c)%N && (c <=? 102)%N then Some (c - 87)%N
  else if (65 <=? c)%N && (c <=? 70)%N then Some (c - 55)%N
  else None.

Definition is_whitespace (c : N) : bool :=
  (c =? 32)%N || (c =? 9)%N || (c =? 10)%N || (c =? 13)%N.

Definition signed (neg : bool) (n : N) : Z :=
  if neg then - Z.of_N n else Z.of_N n.

(** A code unit met outside a token.  The result is the tokens completed by
    it and the next mode; [None] is a [SyntaxError]. *)
Definition lex_default (c : N) : option (list Token * Mode) :=
  if is_whitespace c then Some ([], Default)
  else if (c =? char "[")%N then Some ([TLBracket], Default)
  else if (c =? char "]")%N then Some ([TRBracket], Default)
  else if (c =? char "{")%N then Some ([TLBrace], Default)
  else if (c =? char "}")%N then Some ([TRBrace], Default)
  else if (c =? char ",")%N then Some ([TComma], Default)
  else if (c =? char ":")%N then Some ([TColon], Default)
  else if (c =? char "n")%N then Some ([], Lit (js "ull") TNull)
  else if (c =? char "t")%N then Some ([], Lit (js "rue") TTrue)
  else if (c =? char "f")%N then Some ([], Lit (js "alse") TFalse)
  else if (c =? char "-")%N then Some ([], Minus)
  else if (c =? QUOTE)%N then Some ([], Str [])
  else match digit_of c with
       | Some 0%N => Some ([], Zero false)
       | Some d => Some ([], Int false d)
       | None => None
       end.

(** The number just read ends before [c].  A fraction or an exponent would
    leave the integers, and so does [-0]: the model stops there. *)
Definition end_number (n : option Z) (c : N) : option (list Token * Mode) :=
  if (c =? char ".")%N || (c =? char "e")%N || (c =? char "E")%N then None
  else match n with
       | None => None
       | Some z =>
           match lex_default c with
           | Some (ts, m) => Some (TNum z :: ts, m)
           | None => None
           end
       end.

Definition lex_step (m : Mode) (c : N) : option (list Token * Mode) :=
  match m with
  | Default => lex_default c
  | Lit rest t =>
      match rest with
      | [c'] => if (c =? c')%N then Some ([t], Default) else None
      | c' :: rest' => if (c =? c')%N then Some ([], Lit rest' t) else None
      | [] => None
      end
  | Minus =>
      match digit_of c with
      | Some 0%N => Some ([], Zero true)
      | Some d => Some ([], Int true d)
      | None => None
      end
  | Zero neg =>
      match digit_of c with
      | Some _ => None
      | None => end_number (if neg then None else Some 0) c
      end
  | Int neg n =>
      match digit_of c with
      | Some d => Some ([], Int neg (n * 10 + d)%N)
      | None => end_number (Some (signed neg n)) c
      end
  | Str acc =>
      if (c =? QUOTE)%N then Some ([TStr acc], Default)
      else if (c =? BACKSLASH)%N then Some ([], Esc acc)
      else if (c <? 32)%N then None
      else Some ([], Str (acc ++ [c]))
  | Esc acc =>
      if (c =? QUOTE)%N then Some ([], Str (acc ++ [QUOTE]))
      else if (c =? BACKSLASH)%N then Some ([], Str (acc ++ [BACKSLASH]))
      else if (c =? char "/")%N then Some ([], Str (acc ++ [char "/"]))
      else if (c =? char "b")%N then Some ([], Str (acc ++ [8%N]))
      else if (c =? char "f")%N then Some ([], Str (acc ++ [12%N]))
      else if (c =? char "n")%N then Some ([], Str (acc ++ [10%N]))
      else if (c =? char "r")%N then Some ([], Str (acc ++ [13%N]))
      else if (c =? char "t")%N then Some ([], Str (acc ++ [9%N]))
      else if (c =? char "u")%N then Some ([], Hex acc 0 0)
      else None
  | Hex acc k n =>
      match hex_value c with
      | None => None
      | Some d =>
          let n' := (n * 16 + d)%N in
          if (k <? 3)%nat then Some ([], Hex acc (S k) n')
          else Some ([], Str (acc ++ [n']))
      end
  end.

(** The input ends in mode [m]. *)
Definition lex_end (m : Mode) : option (list Token) :=
  match m with
  | Default => Some []
  | Zero false => Some [TNum 0]
  | Int neg n => Some [TNum (signed neg n)]
  | _ => None
  end.

(** [out] holds the tokens read so far, newest first. *)
Fixpoint lex (m : Mode) (s : jsstring) (out : list Token) : option (list Token) :=
  match s with
  | [] =>
      match lex_end m with
      | Some ts => Some (rev_append out ts)
      | None => None
      end
  | c :: s' =>
      match lex_step m c with
      | Some (ts, m') => lex m' s' (rev_append ts out)
      | None => None
      end
  end.

(** *** [JSON.parse]: the grammar *)

Definition is_digits (s : jsstring) : bool :=
  match s with
  | [] => false
  | _ => forallb (λ c, bool_decide (is_Some (digit_of c))) s
  end.

(** Keys that an ordinary object does not keep in creation order (array
    indices) or does not keep as a data property at all; the model stops at
    them. *)
Definition exotic_key (k : jsstring) : bool :=
  is_digits k || bool_decide (k = js "__proto__").

(** [CreateDataProperty]: a key that is already there keeps its place and
    takes the new value. *)
Fixpoint define_prop (k : jsstring) (v : JsValue) (ps : list (jsstring * JsValue))
  : list (jsstring * JsValue) :=
  match ps with
  | [] => [(k, v)]
  | p :: ps' =>
      if bool_decide (fst p = k) then (k, v) :: ps' else p :: define_prop k v ps'
  end.

Fixpoint parse_value (fuel : nat) (ts : list Token)
  : option (JsValue * list Token) :=
  match fuel with
  | O => None
  | S fuel =>
      match ts with
      | TNull :: ts => Some (JNull, ts)
      | TTrue :: ts => Some (JBool true, ts)
      | TFalse :: ts => Some (JBool false, ts)
      | TNum n :: ts => Some (JNum n, ts)
      | TStr s :: ts => Some (JStr s, ts)
      | TLBracket :: TRBracket :: ts => Some (JArr [], ts)
      | TLBracket :: ts =>
          match parse_value fuel ts with
          | Some (v, ts) => parse_items fuel [v] ts
          | None => None
          end
      | TLBrace :: TRBrace :: ts => Some (JObj [], ts)
      | TLBrace :: TStr k :: TColon :: ts =>
          if exotic_key k then None
          else match parse_value fuel ts with
               | Some (v, ts) => parse_members fuel [(k, v)] ts
               | None => None
               end
      | _ => None
      end
  end
with parse_items (fuel : nat) (acc : list JsValue) (ts : list Token)
  : option (JsValue * list Token) :=
  match fuel with
  | O => None
  | S fuel =>
      match ts with
      | TRBracket :: ts => Some (JArr acc, ts)
      | TComma :: ts =>
          match parse_value fuel ts with
          | Some (v, ts) => parse_items fuel (acc ++ [v]) ts
          | None => None
          end
      | _ => None
      end
  end
with parse_members (fuel : nat) (acc : list (jsstring * JsValue)) (ts : list Token)
  : option (JsValue * list Token) :=
  match fuel with
  | O => None
  | S fuel =>
      match ts with
      | TRBrace :: ts => Some (JObj acc, ts)
      | TComma :: TStr k :: TColon :: ts =>
          if exotic_key k then None
          else match parse_value fuel ts with
               | Some (v, ts) => parse_members fuel (define_prop k v acc) ts
               | None => None
               end
      | _ => None
      end
  end.

(** [JSON.parse(text)] without a reviver; [None] is a [SyntaxError] or a text
    outside the model (a number that is not an integer, an exotic key). *)
Definition JSON_parse (text : jsstring) : option JsValue :=
  match lex Default text [] with
  | None => None
  | Some ts =>
      match parse_value (S (length ts)) ts with
      | Some (v, []) => Some v
      | _ => None
      end
  end.

(** *** What the round trip is stated with *)

Definition tokens_tail (l : list (list Token)) : list Token :=
  foldr (λ y acc, TComma :: y ++ acc) [] l.

Definition join_tokens (l : list (list Token)) : list Token :=
  match l with
  | [] => []
  | x :: l' => x ++ tokens_tail l'
  end.

(** The tokens of the text that [JSON_stringify] writes. *)
Fixpoint tokens (v : JsValue) : list Token :=
  match v with
  | JNull => [TNull]
  | JBool true => [TTrue]
  | JBool false => [TFalse]
  | JNum n => [TNum n]
  | JStr s => [TStr s]
  | JArr items => TLBracket :: join_tokens (map tokens items) ++ [TRBracket]
  | JObj props =>
      TLBrace
        :: join_tokens (map (λ p, TStr (fst p) :: TColon :: tokens (snd p)) props)
        ++ [TRBrace]
  end.

(** Values whose objects have distinct, ordinary keys: the ones an object
    literal of the component or [JSON.parse] itself builds. *)
Fixpoint clean (v : JsValue) : bool :=
  match v with
  | JArr items => forallb clean items
  | JObj props =>
      bool_decide (NoDup (map fst props))
      && forallb (λ p, negb (exotic_key (fst p)) && clean (snd p)) props
  | _ => true
  end.

(** The text after a value in what [JSON_stringify] writes: nothing, or a
    comma or a closing bracket. *)
Definition delimited (rest : jsstring) : bool :=
  match rest with
  | [] => true
  | c :: _ => (c =? char ",")%N || (c =? char "]")%N || (c =? char "}")%N
  end.

(** The text before a closing bracket. *)
Definition closing (rest : jsstring) : bool :=
  match rest with
  | [] => false
  | c :: _ => (c =? char "]")%N || (c =? char "}")%N
  end.

(** [text] is read as [ts], whatever was read before and whatever delimited
    text follows. *)
Definition lexes (text : jsstring) (ts : list Token) : Prop :=
  ∀ rest out, delimited rest = true →
    lex Default (text ++ rest) out = lex Default rest (rev_append ts out).

(** A value is read back from its tokens, given fuel for each of them. *)
Definition parses (v : JsValue) : Prop :=
  clean v = true → ∀ fuel rest,
    (length (tokens v) ≤ fuel)%nat →
    parse_value fuel (tokens v ++ rest) = Some (v, rest).

Section JsValue_ind.
Variable P : JsValue → Prop.
Hypothesis Hnull : P JNull.
Hypothesis Hbool : ∀ b, P (JBool b).
Hypothesis Hnum : ∀ n, P (JNum n).
Hypothesis Hstr : ∀ s, P (JStr s).
Hypothesis Harr : ∀ items, Forall P items → P (JArr items).
Hypothesis Hobj : ∀ props, Forall (λ p, P (snd p)) props → P (JObj props).

Fixpoint JsValue_ind (v : JsValue) : P v :=
  match v with
  | JNull => Hnull
  | JBool b => Hbool b
  | JNum n => Hnum n
  | JStr s => Hstr s
  | JArr items =>
      Harr items
        ((fix go (l : list JsValue) : Forall P l :=
            match l with
            | [] => List.Forall_nil P
            | x :: l' => List.Forall_cons P x l' (JsValue_ind x) (go l')
            end) items)
  | JObj props =>
      Hobj props
        ((fix go (l : list (jsstring * JsValue)) : Forall (λ p, P (snd p)) l :=
            match l with
            | [] => List.Forall_nil _
            | p :: l' => List.Forall_cons _ p l' (JsValue_ind (snd p)) (go l')
            end) props)
  end.
End JsValue_ind.

(** ** Data *)

(** [interface User] *)
Record User := { email : jsstring }.

(** [interface Suggestion] *)
Record Suggestion := { place_id : Z; description : jsstring }.

(** The objects held in [entries] and in [newEntry].  The declared type of
    [newEntry] has the first six properties; [handleSubmit] adds [id] when it
    creates an entry, and the object keeps it at run time when it comes back
    into the form through [handleEditEntry].  [None] for [image] and [video]
    is [null]; [None] for [id] is an absent property. *)
Module Entry.
Record t := mk {
  title : jsstring;
  date : jsstring;
  location : jsstring;
  notes : jsstring;
  image : option jsstring;
  video : option jsstring;
  id : option Z
}.

(** [{ ...e, location: value }] *)
Definition with_location (e : t) (value : jsstring) : t :=
  mk (title e) (date e) value (notes e) (image e) (video e) (id e).

(** [{ ...e, image: base64String }] *)
Definition with_image (e : t) (img : option jsstring) : t :=
  mk (title e) (date e) (location e) (notes e) img (video e) (id e).

(** [{ ...e, id: n }] *)
Definition with_id (e : t) (n : Z) : t :=
  mk (title e) (date e) (location e) (notes e) (image e) (video e) (Some n).

(** The literal passed to [useState] and to [setNewEntry] in [resetForm]. *)
Definition empty : t := mk [] [] [] [] None None None.
End Entry.

(** What the cell [newEntry] holds at run time: an entry, as declared;
    [undefined], which is what [entries[index]] is outside the list; or the
    object that a spread of [undefined] gives, which has no other property
    than those written after the spread.  In this component these are
    [location] and [image]; [None] is an absent property, and [Some None]
    for [image] is [null].  As for an entry, the order in which an object
    got its properties is not kept. *)
Module Form.
Inductive t :=
| Undefined
| Partial (location : option jsstring) (image : option (option jsstring))
| Full (e : Entry.t).

(** [{ ...f, location: value }] *)
Definition with_location (f : t) (value : jsstring) : t :=
  match f with
  | Undefined => Partial (Some value) None
  | Partial _ image => Partial (Some value) image
  | Full e => Full (Entry.with_location e value)
  end.

(** [{ ...f, image: base64String }] *)
Definition with_image (f : t) (img : option jsstring) : t :=
  match f with
  | Undefined => Partial None (Some img)
  | Partial location _ => Partial location (Some img)
  | Full e => Full (Entry.with_image e img)
  end.

(** The property [location] of [f]; [None]: [f] has none, or is no object. *)
Definition location (f : t) : option jsstring :=
  match f with
  | Undefined => None
  | Partial location _ => location
  | Full e => Some (Entry.location e)
  end.

(** The property [image] of [f]; [Some None] is [null]. *)
Definition image (f : t) : option (option jsstring) :=
  match f with
  | Undefined => None
  | Partial _ image => image
  | Full e => Some (Entry.image e)
  end.

(** The value is an object with the properties of an entry. *)
Definition is_full (f : t) : bool :=
  match f with
  | Full _ => true
  | _ => false
  end.

(** A value read from an array: the element, or [undefined]. *)
Definition of_element (o : option Entry.t) : t :=
  match o with
  | Some entry => Full entry
  | None => Undefined
  end.
End Form.

(** The [useState] cells of [TravelJournal]. *)
Record State := mkState {
  isLoginPage : bool;
  isSignUpPage : bool;
  user : option User;
  entries : list Entry.t;
  newEntry : Form.t;
  editMode : bool;
  editIndex : option Z;
  suggestions : list Suggestion
}.

(** What a handler does to the world outside React state. *)
Inductive Effect :=
| PreventDefault
| Alert (msg : string)
| Confirm (msg : string)
| ConsoleError (msg err : string)
| Fetch (url : jsstring)
| Uncaught (err : string).            (* an exception that leaves the handler *)

(** A value or a thrown exception (a rejected promise). *)
Inductive Exn (A : Type) :=
| Ok (a : A)
| Throw (err : string).
Arguments Ok {A} a.
Arguments Throw {A} err.

(** The [Response] of [fetch]: its [ok] flag and what [response.json()]
    resolves to (or rejects with). *)
Record Response := { ok : bool; json : Exn (list Suggestion) }.

(** ** The handler monad *)

Record Run := mkRun {
  pending : State;                  (* the state the next render will see *)
  storage : gmap string jsstring;   (* localStorage *)
  entriesSet : bool;                (* setEntries was called: a new array *)
  trace : list Effect               (* effects, oldest first *)
}.

Definition Handler (A : Type) : Type := Run → A * Run.

#[global] Instance Handler_ret : MRet Handler := λ A a r, (a, r).
#[global] Instance Handler_bind : MBind Handler :=
  λ A B f m r, let '(a, r') := m r in f a r'.

Definition modify (f : State → State) : Handler unit :=
  λ r, (tt, mkRun (f (pending r)) (storage r) (entriesSet r) (trace r)).

Definition perform (e : Effect) : Handler unit :=
  λ r, (tt, mkRun (pending r) (storage r) (entriesSet r) (trace r ++ [e])).

(** The setters returned by [useState]. *)
Definition setIsLoginPage (b : bool) : Handler unit :=
  modify (λ s, mkState b (isSignUpPage s) (user s) (entries s) (newEntry s)
                       (editMode s) (editIndex s) (suggestions s)).
Definition setIsSignUpPage (b : bool) : Handler unit :=
  modify (λ s, mkState (isLoginPage s) b (user s) (entries s) (newEntry s)
                       (editMode s) (editIndex s) (suggestions s)).
Definition setUser (u : option User) : Handler unit :=
  modify (λ s, mkState (isLoginPage s) (isSignUpPage s) u (entries s)
                       (newEntry s) (editMode s) (editIndex s) (suggestions s)).
Definition setEntries (es : list Entry.t) : Handler unit :=
  λ r, let s := pending r in
       (tt, mkRun (mkState (isLoginPage s) (isSignUpPage s) (user s) es
                           (newEntry s) (editMode s) (editIndex s)
                           (suggestions s))
                  (storage r) true (trace r)).
(** [setNewEntry(prev => f(prev))]; [setNewEntry(v)] is the constant case. *)
Definition setNewEntryWith (f : Form.t → Form.t) : Handler unit :=
  modify (λ s, mkState (isLoginPage s) (isSignUpPage s) (user s) (entries s)
                       (f (newEntry s)) (editMode s) (editIndex s)
                       (suggestions s)).
Definition setNewEntry (v : Form.t) : Handler unit := setNewEntryWith (λ _, v).
Definition setEditMode (b : bool) : Handler unit :=
  modify (λ s, mkState (isLoginPage s) (isSignUpPage s) (user s) (entries s)
                       (newEntry s) b (editIndex s) (suggestions s)).
Definition setEditIndex (i : option Z) : Handler unit :=
  modify (λ s, mkState (isLoginPage s) (isSignUpPage s) (user s) (entries s)
                       (newEntry s) (editMode s) i (suggestions s)).
Definition setSuggestions (l : list Suggestion) : Handler unit :=
  modify (λ s, mkState (isLoginPage s) (isSignUpPage s) (user s) (entries s)
                       (newEntry s) (editMode s) (editIndex s) l).

(** Browser calls. *)
Definition preventDefault : Handler unit := perform PreventDefault.
Definition alert (msg : string) : Handler unit := perform (Alert msg).
Definition console_error (msg err : string) : Handler unit :=
  perform (ConsoleError msg err).
(** [window.confirm(msg)]; [answer] is what the user clicks. *)
Definition confirm (msg : string) (answer : bool) : Handler bool :=
  perform (Confirm msg);; mret answer.
(** [await fetch(url)]; [net] is what the network answers.  The handler
    goes on at once with that answer: what other events do to the state
    while the request is under way is not part of the handler. *)
Definition fetch (url : jsstring) (net : Exn Response)
  : Handler (Exn Response) :=
  perform (Fetch url);; mret net.
(** An exception thrown in an event handler ends the handler; React leaves
    the updates queued before it in place and reports the exception. *)
Definition uncaught (err : string) : Handler unit := perform (Uncaught err).
Definition localStorage_removeItem (key : string) : Handler unit :=
  λ r, (tt, mkRun (pending r) (delete key (storage r)) (entriesSet r)
                  (trace r)).

(** ** JavaScript helpers *)

(** [Array.prototype.filter] with a callback that also takes the index. *)
Fixpoint filter_from {A} (p : A → nat → bool) (i : nat) (l : list A) : list A :=
  match l with
  | [] => []
  | x :: l' =>
      if p x i then x :: filter_from p (S i) l' else filter_from p (S i) l'
  end.
Definition Array_filter {A} (p : A → nat → bool) (l : list A) : list A :=
  filter_from p 0%nat l.

(** [index === editIndex], an array position against a number or [null]. *)
Definition index_is (index : nat) (i : option Z) : bool :=
  match i with
  | Some z => (Z.of_nat index =? z)%Z
  | None => false
  end.

(** ** Handlers *)

Definition handleLogout (s : State) : Handler unit :=
  localStorage_removeItem "user";;
  setUser None.

Definition handleAuthSuccess (s : State) (userData : User) : Handler unit :=
  setUser (Some userData).

Definition fetchSuggestions (query : jsstring) (net : Exn Response)
  : Handler (Exn (list Suggestion)) :=
  response ←
    fetch (js "https://api.example.com/suggestions?query=" ++ query) net;
  match response with
  | Throw err => mret (Throw err)
  | Ok response =>
      if negb (ok response) then mret (Throw "Failed to fetch suggestions")
      else mret (json response)
  end.

Definition handleLocationChange (s : State) (value : jsstring)
  (net : Exn Response)
  : Handler unit :=
  setNewEntry (Form.with_location (newEntry s) value);;
  if (2 <? length value)%nat then
    r ← fetchSuggestions value net;
    match r with
    | Ok suggestions => setSuggestions suggestions
    | Throw error => console_error "Error fetching suggestions:" error
    end
  else setSuggestions [].

(** [reader.onloadend]; [result] is [reader.result]. *)
Definition handleImageUpload (s : State) (result : option jsstring)
  : Handler unit :=
  setNewEntryWith (λ prev, Form.with_image prev result).

Definition resetForm : Handler unit :=
  setNewEntry (Form.Full Entry.empty);;
  setSuggestions [];;
  setEditMode false;;
  setEditIndex None.

(** The check [!newEntry.title || !newEntry.date || !newEntry.location]
    reads [title] first: of [undefined] that read throws a [TypeError]; of
    an object without [title] it gives [undefined], which is falsy, so the
    check holds whatever the other properties are. *)
Definition handleSubmit (s : State) (now : Z) : Handler unit :=
  preventDefault;;
  match newEntry s with
  | Form.Undefined => uncaught "TypeError"
  | Form.Partial _ _ => alert "タイトル、日付、場所は必須項目です。"
  | Form.Full form =>
      if negb (truthy (Entry.title form))
         || negb (truthy (Entry.date form))
         || negb (truthy (Entry.location form))
      then alert "タイトル、日付、場所は必須項目です。"
      else
        (if editMode s && bool_decide (editIndex s ≠ None) then
           let updatedEntries :=
             imap (λ index entry,
                     if index_is index (editIndex s) then form else entry)
                  (entries s) in
           setEntries updatedEntries
         else setEntries (entries s ++ [Entry.with_id form now]));;
        resetForm
  end.

(** [entries[index]]: [None] is [undefined]. *)
Definition Array_get {A} (l : list A) (index : Z) : option A :=
  if (0 <=? index)%Z then l !! Z.to_nat index else None.

(** No check of [index]: outside the list the form is set to [undefined],
    and edit mode is entered with that index all the same. *)
Definition handleEditEntry (s : State) (index : Z) : Handler unit :=
  setEditMode true;;
  setEditIndex (Some index);;
  setNewEntry (Form.of_element (Array_get (entries s) index)).

Definition handleDeleteEntry (s : State) (index : Z) (answer : bool)
  : Handler unit :=
  confirmed ← confirm "このエントリを削除してもよろしいですか？" answer;
  if confirmed : bool then
    let updatedEntries :=
      Array_filter (λ _ i, negb (Z.of_nat i =? index)%Z) (entries s) in
    setEntries updatedEntries
  else mret tt.

(** The inline handlers of the two render functions. *)
Definition onClose (s : State) : Handler unit :=
  setIsLoginPage false;;
  setIsSignUpPage false.
Definition onClickLogin (s : State) : Handler unit := setIsLoginPage true.
Definition onClickSignUp (s : State) : Handler unit := setIsSignUpPage true.
(** [onEntryChange={setNewEntry}]: [EntryForm] is typed to call it with an
    entry. *)
Definition onEntryChange (s : State) (e : Entry.t) : Handler unit :=
  setNewEntry (Form.Full e).
Definition onSelectLocation (s : State) (place : Suggestion) : Handler unit :=
  setNewEntry (Form.with_location (newEntry s) (description place)).

(** ** Persistence *)

(** The component's objects as [JSON.stringify] meets them. *)
Definition nullable (o : option jsstring) : JsValue :=
  match o with
  | Some s => JStr s
  | None => JNull
  end.

Definition Entry_to_js (e : Entry.t) : JsValue :=
  JObj ([(js "title", JStr (Entry.title e));
         (js "date", JStr (Entry.date e));
         (js "location", JStr (Entry.location e));
         (js "notes", JStr (Entry.notes e));
         (js "image", nullable (Entry.image e));
         (js "video", nullable (Entry.video e))]
          ++ match Entry.id e with
             | Some n => [(js "id", JNum n)]
             | None => []
             end).

Definition entries_to_js (es : list Entry.t) : JsValue :=
  JArr (map Entry_to_js es).

(** What [JSON.parse] returns has type [any]; the component uses it at the
    types below.  [None]: the value is not of that type. *)
Fixpoint get_prop (k : jsstring) (ps : list (jsstring * JsValue))
  : option JsValue :=
  match ps with
  | [] => None
  | p :: ps' => if bool_decide (fst p = k) then Some (snd p) else get_prop k ps'
  end.

Definition as_string (v : JsValue) : option jsstring :=
  match v with
  | JStr s => Some s
  | _ => None
  end.

Definition as_nullable (v : JsValue) : option (option jsstring) :=
  match v with
  | JStr s => Some (Some s)
  | JNull => Some None
  | _ => None
  end.

Definition as_optional_number (v : option JsValue) : option (option Z) :=
  match v with
  | None => Some None
  | Some (JNum n) => Some (Some n)
  | Some _ => None
  end.

Definition Entry_of_js (v : JsValue) : option Entry.t :=
  match v with
  | JObj ps =>
      title ← get_prop (js "title") ps ≫= as_string;
      date ← get_prop (js "date") ps ≫= as_string;
      location ← get_prop (js "location") ps ≫= as_string;
      notes ← get_prop (js "notes") ps ≫= as_string;
      image ← get_prop (js "image") ps ≫= as_nullable;
      video ← get_prop (js "video") ps ≫= as_nullable;
      id ← as_optional_number (get_prop (js "id") ps);
      Some (Entry.mk title date location notes image video id)
  | _ => None
  end.

Definition entries_of_js (v : JsValue) : option (list Entry.t) :=
  match v with
  | JArr items => mapM Entry_of_js items
  | _ => None
  end.

Definition User_of_js (v : JsValue) : option (option User) :=
  match v with
  | JNull => Some None
  | JObj ps =>
      email ← get_prop (js "email") ps ≫= as_string;
      Some (Some {| email := email |})
  | _ => None
  end.

(** [loadSavedEntries]; [window] is [typeof window !== "undefined"], and
    [None] is the exception of [JSON.parse]. *)
Definition loadSavedEntries (window : bool)
  (localStorage : gmap string jsstring) : option JsValue :=
  if window then
    let savedEntries := localStorage !! "journalEntries" in
    match savedEntries with
    | Some text => if truthy text then JSON_parse text else Some (JArr [])
    | None => Some (JArr [])
    end
  else Some (JArr []).

Definition loadSavedUser (window : bool)
  (localStorage : gmap string jsstring) : option JsValue :=
  if window then
    let savedUser := localStorage !! "user" in
    match savedUser with
    | Some text => if truthy text then JSON_parse text else Some JNull
    | None => Some JNull
    end
  else Some JNull.

(** The body of the [useEffect] that depends on [entries]. *)
Definition persistEntries (window : bool) (entries : list Entry.t)
  (localStorage : gmap string jsstring) : gmap string jsstring :=
  if window then
    <["journalEntries" := JSON_stringify (entries_to_js entries)]> localStorage
  else localStorage.

(** ** The component in the browser *)

Record World := mkWorld {
  window_defined : bool;                 (* typeof window !== "undefined" *)
  localStorage : gmap string jsstring;
  component : State;                     (* the state of the last render *)
  effects : list Effect                  (* what handlers did so far *)
}.

(** A handler of the last render starts from that render's state. *)
Definition start (w : World) : Run :=
  mkRun (component w) (localStorage w) false [].

Definition run (w : World) (h : Handler unit) : Run := snd (h (start w)).

(** One turn of the event loop: the handler runs, React renders again with
    the queued state, and the effect runs if [entries] is another array than
    at the last render. *)
Definition commit (w : World) (h : Handler unit) : World :=
  let r := run w h in
  mkWorld (window_defined w)
          (if entriesSet r
           then persistEntries (window_defined w) (entries (pending r))
                               (storage r)
           else storage r)
          (pending r)
          (effects w ++ trace r).

(** The first render: the [useState] initialisers read the storage, then the
    effect runs.  [None]: [JSON.parse] threw, or what it returned is not of
    the type the component declares. *)
Definition mount (window : bool) (localStorage : gmap string jsstring)
  : option World :=
  user ← loadSavedUser window localStorage ≫= User_of_js;
  entries ← loadSavedEntries window localStorage ≫= entries_of_js;
  Some (mkWorld window
          (persistEntries window entries localStorage)
          (mkState false false user entries (Form.Full Entry.empty) false None
                   [])
          []).

(** ** Rendering *)

#[local] Unset Elimination Schemes.
Inductive Element :=
| Header (email : jsstring)
| EntryForm (newEntry : Form.t) (editMode : bool)
            (suggestions : list Suggestion)
| EntryList (entries : list Entry.t)
| AuthForm (isLogin : bool)
| Button (label : string)
| H1 (text : string)
| Div (children : list Element)
| Fragment (children : list Element).
#[local] Set Elimination Schemes.

Definition renderAuthForm (s : State) : Element :=
  Div [Div [Div [
    H1 "Virtual Travel Journal";
    if isLoginPage s || isSignUpPage s then AuthForm (isLoginPage s)
    else Div [Button "ログイン"; Button "新規登録"]]]].

Definition renderMainContent (s : State) : Element :=
  Fragment [
    Header (match user s with
            | Some u => if truthy (email u) then email u else []
            | None => []
            end);
    EntryForm (newEntry s) (editMode s) (suggestions s);
    EntryList (entries s)].

Definition TravelJournal (s : State) : Element :=
  match user s with
  | Some _ => renderMainContent s
  | None => renderAuthForm s
  end.

(** An element of the tree satisfies [p]. *)
Fixpoint shows (p : Element → bool) (e : Element) : bool :=
  p e || match e with
         | Div children | Fragment children => existsb (shows p) children
         | _ => false
         end.

Definition is_EntryForm (e : Element) : bool :=
  match e with EntryForm _ _ _ => true | _ => false end.
Definition is_EntryList (e : Element) : bool :=
  match e with EntryList _ => true | _ => false end.
Definition is_AuthForm (e : Element) : bool :=
  match e with AuthForm _ => true | _ => false end.

(** ** Events *)

(** What the user or the browser can make the component do: one constructor
    for each handler the component passes to its children or to the DOM.
    The children ([Header], [EntryForm], [EntryList], [AuthForm]) are not
    part of this file: the model lets every event come at every render, with
    any argument of the declared type. *)
Inductive Event :=
| Logout
| AuthSuccess (userData : User)
| LocationChange (value : jsstring) (net : Exn Response)
| ImageLoaded (result : option jsstring)
| Submit (now : Z)
| EditEntry (index : Z)
| DeleteEntry (index : Z) (answer : bool)
| EntryChange (e : Entry.t)
| SelectLocation (place : Suggestion)
| CloseAuth
| ClickLogin
| ClickSignUp.

Definition handler (s : State) (ev : Event) : Handler unit :=
  match ev with
  | Logout => handleLogout s
  | AuthSuccess userData => handleAuthSuccess s userData
  | LocationChange value net => handleLocationChange s value net
  | ImageLoaded result => handleImageUpload s result
  | Submit now => handleSubmit s now
  | EditEntry index => handleEditEntry s index
  | DeleteEntry index answer => handleDeleteEntry s index answer
  | EntryChange e => onEntryChange s e
  | SelectLocation place => onSelectLocation s place
  | CloseAuth => onClose s
  | ClickLogin => onClickLogin s
  | ClickSignUp => onClickSignUp s
  end.

Definition dispatch (w : World) (ev : Event) : World :=
  commit w (handler (component w) ev).

(** The storage mirrors the entries of the last render. *)
Definition persisted (w : World) : Prop :=
  localStorage w !! "journalEntries"
  = Some (JSON_stringify (entries_to_js (entries (component w)))).

(** What the component can come to, from the first render on. *)
Inductive reachable (ls : gmap string jsstring) : World → Prop :=
| reachable_mount w : mount true ls = Some w → reachable ls w
| reachable_dispatch w ev :
    reachable ls w → reachable ls (dispatch w ev).

(** The form passes the check of [handleSubmit]. *)
Definition valid (e : Entry.t) : Prop :=
  Entry.title e ≠ [] ∧ Entry.date e ≠ [] ∧ Entry.location e ≠ [].

(** ** Sample worlds *)

Definition kyoto : Entry.t :=
  Entry.mk (js "Kyoto") (js "2024-04-01") (js "Kyoto, Japan")
           (js "Cherry blossoms") None None
           (Some 1711929600000).

Definition nara : Entry.t :=
  Entry.mk (js "Nara") (js "2024-04-02") (js "Nara, Japan") (js "Deer park")
           None None
           (Some 1712016000000).

Definition draft : Entry.t :=
  Entry.mk (js "Osaka") (js "2024-04-03") (js "Osaka, Japan") [] None None None.

Definition traveller : User := {| email := js "traveller@example.com" |}.

(** Signed in, two saved entries, a filled form. *)
Definition creating : World :=
  mkWorld true (persistEntries true [kyoto; nara] ∅)
          (mkState false false (Some traveller) [kyoto; nara] (Form.Full draft)
                   false None [])
          [].

(** The same, editing the second entry. *)
Definition editing : World :=
  mkWorld true (persistEntries true [kyoto; nara] ∅)
          (mkState false false (Some traveller) [kyoto; nara]
                   (Form.Full (Entry.with_location nara (js "Nara Park")))
                   true (Some 1) [])
          [].

(** The same, with a form that lacks its title. *)
Definition incomplete : World :=
  mkWorld true (persistEntries true [kyoto; nara] ∅)
          (mkState false false (Some traveller) [kyoto; nara]
                   (Form.Full (Entry.mk [] (js "2024-04-03") (js "Osaka, Japan")
                                        [] None None None))
                   false None
                   [{| place_id := 7; description := js "Osaka, Japan" |}])
          [].

(** The two code units of the name of Kyoto in Japanese, and a string with
    one more. *)
Definition kyoto_ja : jsstring := [20140; 37117]%N.
Definition kyoto_shi_ja : jsstring := [20140; 37117; 24066]%N.

(** The first render in a browser that has nothing stored. *)
Definition first_visit : World :=
  mkWorld true (persistEntries true [] ∅)
          (mkState false false None [] (Form.Full Entry.empty) false None [])
          [].

(** Two handlers of the same render, run one after the other before React
    renders again: their updates are queued on top of each other. *)
Definition batch (h1 h2 : Handler unit) : Handler unit := h1;; h2.

(** [editing] after the entry under edit, the last one, was deleted: the
    form is still open for index 1 of a list of length 1. *)
Definition stale_edit : World :=
  commit editing (handleDeleteEntry (component editing) 1 true).

(** Several events in turn, each on the render the one before left. *)
Fixpoint dispatch_all (w : World) (evs : list Event) : World :=
  match evs with
  | [] => w
  | ev :: evs' => dispatch_all (dispatch w ev) evs'
  end.

(** The events by which this component itself changes the form: typing or
    picking a location, and the end of an image upload. *)
Definition is_form_event (ev : Event) : bool :=
  match ev with
  | LocationChange _ _ | SelectLocation _ | ImageLoaded _ => true
  | _ => false
  end.

(** A first visit on which an entry was typed in, submitted and opened for
    editing again. *)
Definition first_session : list Event :=
  [AuthSuccess traveller; EntryChange draft; Submit 1712102400000; EditEntry 0].

Definition editing_first : World := dispatch_all first_visit first_session.

(** Signed in, one saved entry, a filled form, at the millisecond at which
    that entry was created. *)
Definition same_millisecond : World :=
  mkWorld true (persistEntries true [kyoto] ∅)
          (mkState false false (Some traveller) [kyoto] (Form.Full draft)
                   false None [])
          [].

(** [creating] after the list asked for the entry at index 2, which it
    does not have. *)
Definition stray_edit : World := dispatch creating (EditEntry 2).

(** [interface User] as [JSON.stringify] meets it. *)
Definition User_to_js (u : User) : JsValue := JObj [(js "email", JStr (email u))].

(** * Properties *)

(** ** [JSON.parse] on some texts *)

Example parse_spaced_array :
  JSON_parse (js " [ 1 , -20 ,[ ] , null, true ] ")
  = Some (JArr [JNum 1; JNum (-20); JArr []; JNull; JBool true]).
Proof. reflexivity. Qed.

Example parse_duplicate_key :
  JSON_parse (JSON_stringify
                (JObj [(js "a", JNum 1); (js "b", JNum 2); (js "a", JNum 3)]))
  = Some (JObj [(js "a", JNum 3); (js "b", JNum 2)]).
Proof. reflexivity. Qed.

Example parse_escapes :
  JSON_parse (QUOTE :: js "\u0041\n\/\ud83d\ude00" ++ [QUOTE])
  = Some (JStr [65; 10; 47; 55357; 56832]%N).
Proof. reflexivity. Qed.

Example parse_rejects :
  JSON_parse [] = None ∧ JSON_parse (js "[1,]") = None
  ∧ JSON_parse (js "01") = None ∧ JSON_parse (js "1 2") = None
  ∧ JSON_parse (js "nul") = None ∧ JSON_parse (js "1.5") = None.
Proof. by repeat split. Qed.

(** A surrogate pair is written as it is, a surrogate on its own escaped. *)
Example stringify_surrogates :
  JSON_stringify (JStr [55357; 56832; 55357]%N)
  = QUOTE :: [55357; 56832]%N ++ js "\ud83d" ++ [QUOTE].
Proof. reflexivity. Qed.

(** ** Lexing what [JSON_stringify] writes *)

Lemma append_cons (c : ascii) (a b : string) :
  String c a +:+ b = String c (a +:+ b).
Proof. reflexivity. Qed.

Lemma append_assoc (a b c : string) : (a +:+ b) +:+ c = a +:+ (b +:+ c).
Proof.
  induction a as [|x a IH]; [reflexivity|].
  by rewrite !append_cons, IH.
Qed.

Lemma js_app (a b : string) : js (a +:+ b) = js a ++ js b.
Proof.
  induction a as [|x a IH]; [reflexivity|].
  rewrite append_cons. cbn [js app]. by rewrite IH.
Qed.

Lemma lex_cons m c s out :
  lex m (c :: s) out =
  match lex_step m c with
  | Some (ts, m') => lex m' s (rev_append ts out)
  | None => None
  end.
Proof. reflexivity. Qed.

Lemma rev_append_app {A} (a b out : list A) :
  rev_append (a ++ b) out = rev_append b (rev_append a out).
Proof. revert out. induction a as [|x a IH]; intros out; [done|]. apply IH. Qed.

(** *** Strings *)

Lemma small_N (d : N) :
  (d < 16)%N →
  d = 0%N ∨ d = 1%N ∨ d = 2%N ∨ d = 3%N ∨ d = 4%N ∨ d = 5%N ∨ d = 6%N
  ∨ d = 7%N ∨ d = 8%N ∨ d = 9%N ∨ d = 10%N ∨ d = 11%N ∨ d = 12%N
  ∨ d = 13%N ∨ d = 14%N ∨ d = 15%N.
Proof. lia. Qed.

Lemma hex_value_hex_digit d : (d < 16)%N → hex_value (hex_digit d) = Some d.
Proof.
  intros Hd.
  by destruct (small_N d Hd)
    as [->|[->|[->|[->|[->|[->|[->|[->|[->|[->|[->|[->|[->|[->|[->| ->]]]]]]]]]]]]]]].
Qed.

Lemma lex_hex acc k n d rest out :
  (d < 16)%N →
  lex (Hex acc k n) (hex_digit d :: rest) out
  = lex (if (k <? 3)%nat then Hex acc (S k) (n * 16 + d)
         else Str (acc ++ [(n * 16 + d)%N])) rest out.
Proof.
  intros Hd. rewrite lex_cons. cbn [lex_step].
  rewrite hex_value_hex_digit by done. by destruct (k <? 3)%nat.
Qed.

Lemma hex_digits_value (c : N) :
  (c < 65536)%N →
  ((((0 * 16 + (c / 4096) mod 16) * 16 + (c / 256) mod 16) * 16
    + (c / 16) mod 16) * 16 + c mod 16 = c)%N.
Proof.
  intros Hc.
  pose proof (N.div_mod c 16 ltac:(done)).
  pose proof (N.div_mod (c / 16) 16 ltac:(done)).
  pose proof (N.div_mod (c / 16 / 16) 16 ltac:(done)).
  pose proof (N.mod_lt c 16 ltac:(done)).
  pose proof (N.mod_lt (c / 16) 16 ltac:(done)).
  pose proof (N.mod_lt (c / 16 / 16) 16 ltac:(done)).
  assert (c / 256 = c / 16 / 16)%N as -> by by rewrite N.Div0.div_div.
  assert (c / 4096 = c / 16 / 16 / 16)%N as -> by by rewrite !N.Div0.div_div.
  assert (c / 16 / 16 / 16 < 16)%N.
  { rewrite !N.Div0.div_div. apply N.Div0.div_lt_upper_bound. lia. }
  rewrite (N.mod_small (c / 16 / 16 / 16)) by done. lia.
Qed.

Lemma lex_UnicodeEscape c acc rest out :
  (c < 65536)%N →
  lex (Str acc) (UnicodeEscape c ++ rest) out = lex (Str (acc ++ [c])) rest out.
Proof.
  intros Hc. unfold UnicodeEscape. cbn [app].
  rewrite lex_cons.
  change (lex_step (Str acc) BACKSLASH) with (Some ([] : list Token, Esc acc)).
  cbn [rev_append]. rewrite lex_cons.
  change (lex_step (Esc acc) (char "u")) with (Some ([] : list Token, Hex acc 0 0)).
  cbn [rev_append].
  do 4 (rewrite lex_hex by (apply N.mod_lt; lia); cbn [Nat.ltb Nat.leb]).
  by rewrite hex_digits_value.
Qed.

(** A code unit that stands for itself between the quotes. *)
Lemma lex_plain_unit c acc rest out :
  c ≠ QUOTE → c ≠ BACKSLASH → (32 ≤ c)%N →
  lex (Str acc) (c :: rest) out = lex (Str (acc ++ [c])) rest out.
Proof.
  intros Hq Hb Hc. rewrite lex_cons. cbn [lex_step].
  rewrite (proj2 (N.eqb_neq c QUOTE)), (proj2 (N.eqb_neq c BACKSLASH)) by done.
  by rewrite (proj2 (N.ltb_ge c 32)).
Qed.

Lemma lex_quote_unit c acc rest out :
  lex (Str acc) (quote_unit c ++ rest) out = lex (Str (acc ++ [c])) rest out.
Proof.
  unfold quote_unit.
  destruct (N.eqb_spec c 8) as [->|?]; [reflexivity|].
  destruct (N.eqb_spec c 9) as [->|?]; [reflexivity|].
  destruct (N.eqb_spec c 10) as [->|?]; [reflexivity|].
  destruct (N.eqb_spec c 12) as [->|?]; [reflexivity|].
  destruct (N.eqb_spec c 13) as [->|?]; [reflexivity|].
  destruct (N.eqb_spec c QUOTE) as [->|?]; [reflexivity|].
  destruct (N.eqb_spec c BACKSLASH) as [->|?]; [reflexivity|].
  destruct ((c <? 32)%N || is_leading_surrogate c || is_trailing_surrogate c)
    eqn:Hesc.
  - apply lex_UnicodeEscape.
    unfold is_leading_surrogate, is_trailing_surrogate in Hesc.
    repeat (apply orb_prop in Hesc as [Hesc|Hesc]).
    + apply N.ltb_lt in Hesc. lia.
    + apply andb_prop in Hesc as [_ Hesc%N.leb_le]. lia.
    + apply andb_prop in Hesc as [_ Hesc%N.leb_le]. lia.
  - apply orb_false_elim in Hesc as [[Hesc%N.ltb_ge _]%orb_false_elim _].
    by apply lex_plain_unit.
Qed.

Lemma surrogate_plain c :
  is_leading_surrogate c || is_trailing_surrogate c = true →
  c ≠ QUOTE ∧ c ≠ BACKSLASH ∧ (32 ≤ c)%N.
Proof.
  unfold is_leading_surrogate, is_trailing_surrogate, QUOTE, BACKSLASH.
  intros [[H _]%andb_prop|[H _]%andb_prop]%orb_prop;
    apply N.leb_le in H; lia.
Qed.

Lemma lex_quote_units s acc rest out :
  lex (Str acc) (quote_units s ++ rest) out = lex (Str (acc ++ s)) rest out.
Proof.
  remember (length s) as n eqn:Hn. revert s acc Hn.
  induction (lt_wf n) as [n _ IH]; intros s acc ->.
  destruct s as [|c [|d s]].
  - by rewrite app_nil_r.
  - apply lex_quote_unit.
  - change (quote_units (c :: d :: s))
      with (if is_leading_surrogate c && is_trailing_surrogate d
            then c :: d :: quote_units s
            else quote_unit c ++ quote_units (d :: s)).
    destruct (is_leading_surrogate c && is_trailing_surrogate d) eqn:Hpair.
    + apply andb_prop in Hpair as [Hc Hd].
      destruct (surrogate_plain c) as (? & ? & ?); [by rewrite Hc|].
      destruct (surrogate_plain d) as (? & ? & ?); [by rewrite Hd, orb_true_r|].
      cbn [app]. rewrite !lex_plain_unit by done.
      rewrite (IH (length s)) by (done || cbn; lia).
      by rewrite <-!app_assoc.
    + rewrite <-app_assoc, lex_quote_unit.
      rewrite (IH (length (d :: s))) by (done || cbn; lia).
      by rewrite <-app_assoc.
Qed.

Lemma lex_QuoteJSONString s rest out :
  lex Default (QuoteJSONString s ++ rest) out = lex Default rest (TStr s :: out).
Proof.
  unfold QuoteJSONString. cbn [app]. rewrite lex_cons.
  change (lex_step Default QUOTE) with (Some ([] : list Token, Str [])).
  cbn [rev_append]. rewrite <-app_assoc, lex_quote_units. reflexivity.
Qed.

(** *** Numbers *)

Lemma pretty_N_go_app x s : pretty_N_go x s = pretty_N_go x "" +:+ s.
Proof.
  revert s. induction (N.lt_wf_0 x) as [x _ IH]; intros s.
  destruct (decide (x = 0)%N) as [->|Hx]; [by rewrite !pretty_N_go_0|].
  rewrite !(pretty_N_go_step x) by lia.
  assert (x `div` 10 < x)%N as Hlt by (apply N.div_lt; lia).
  rewrite (IH _ Hlt (String (pretty_N_char (x `mod` 10)) s)).
  rewrite (IH _ Hlt (String (pretty_N_char (x `mod` 10)) "")).
  by rewrite append_assoc.
Qed.

Lemma digit_of_pretty_N_char d :
  (d < 10)%N → digit_of (char (pretty_N_char d)) = Some d.
Proof.
  intros Hd.
  by destruct (small_N d ltac:(lia))
    as [->|[->|[->|[->|[->|[->|[->|[->|[->|[->|?]]]]]]]]]]; [..|lia].
Qed.

Lemma lex_first_digit (neg : bool) (d : N) :
  (0 < d < 10)%N →
  lex_step (if neg then Minus else Default) (char (pretty_N_char d))
  = Some ([], Int neg d).
Proof.
  intros [Hd0 Hd]. destruct neg;
  by destruct (small_N d ltac:(lia))
    as [->|[->|[->|[->|[->|[->|[->|[->|[->|[->|?]]]]]]]]]]; [..|lia].
Qed.

Lemma lex_digits (x : N) (neg : bool) rest out :
  (0 < x)%N →
  lex (if neg then Minus else Default) (js (pretty_N_go x "") ++ rest) out
  = lex (Int neg x) rest out.
Proof.
  revert rest. induction (N.lt_wf_0 x) as [x _ IH]; intros rest Hx.
  rewrite pretty_N_go_step by done.
  destruct (decide (x < 10)%N) as [Hsmall|Hbig].
  - rewrite N.div_small, N.mod_small, pretty_N_go_0 by done.
    cbn [js app]. rewrite lex_cons, lex_first_digit by done. reflexivity.
  - rewrite pretty_N_go_app, js_app, <-app_assoc. cbn [js app].
    rewrite IH; [|apply N.div_lt; lia|apply N.div_str_pos; lia].
    rewrite lex_cons. cbn [lex_step].
    rewrite digit_of_pretty_N_char by (apply N.mod_lt; lia).
    cbn [rev_append]. do 2 f_equal.
    rewrite (N.div_mod x 10) at 3 by lia. lia.
Qed.

Lemma delimited_inv rest :
  delimited rest = true →
  rest = [] ∨ ∃ r, rest = char "," :: r ∨ rest = char "]" :: r
                   ∨ rest = char "}" :: r.
Proof.
  destruct rest as [|c r]; [by left|]. cbn [delimited].
  rewrite !orb_true_iff, !N.eqb_eq. intros [[->| ->]| ->]; eauto.
Qed.

Lemma lex_Int_end neg n rest out :
  delimited rest = true →
  lex (Int neg n) rest out = lex Default rest (TNum (signed neg n) :: out).
Proof. intros [->|[r [->|[->| ->]]]]%delimited_inv; reflexivity. Qed.

Lemma lex_Zero_end rest out :
  delimited rest = true →
  lex (Zero false) rest out = lex Default rest (TNum 0 :: out).
Proof. intros [->|[r [->|[->| ->]]]]%delimited_inv; reflexivity. Qed.

Lemma pretty_pos p : pretty (Z.pos p) = pretty_N_go (N.pos p) "".
Proof. reflexivity. Qed.

Lemma pretty_neg p : pretty (Z.neg p) = String "-" (pretty_N_go (N.pos p) "").
Proof. reflexivity. Qed.

Lemma lexes_number z : lexes (Number_toString z) [TNum z].
Proof.
  intros rest out Hrest. unfold Number_toString.
  destruct z as [|p|p].
  - change (js (pretty 0)) with [char "0"]. cbn [app]. rewrite lex_cons.
    change (lex_step Default (char "0")) with (Some ([] : list Token, Zero false)).
    by apply lex_Zero_end.
  - rewrite pretty_pos, (lex_digits _ false) by lia. by rewrite lex_Int_end.
  - rewrite pretty_neg. cbn [js app]. rewrite lex_cons.
    change (lex_step Default (char "-")) with (Some ([] : list Token, Minus)).
    cbn [rev_append]. rewrite (lex_digits _ true) by lia. by rewrite lex_Int_end.
Qed.

Lemma lexes_string s : lexes (QuoteJSONString s) [TStr s].
Proof. intros rest out _. apply lex_QuoteJSONString. Qed.

(** *** Arrays and objects *)

Lemma closing_delimited rest : closing rest = true → delimited rest = true.
Proof.
  destruct rest as [|c r]; [done|]. cbn [closing delimited].
  rewrite !orb_true_iff. tauto.
Qed.

Section join.
Context {A : Type} (f : A → jsstring) (g : A → list Token).

Lemma comma_tail_delimited l rest :
  delimited rest = true → delimited (comma_tail (map f l) ++ rest) = true.
Proof. by destruct l. Qed.

Lemma lex_tail l rest out :
  Forall (λ x, lexes (f x) (g x)) l →
  delimited rest = true →
  lex Default (comma_tail (map f l) ++ rest) out
  = lex Default rest (rev_append (tokens_tail (map g l)) out).
Proof.
  intros Hl Hrest. revert out.
  induction Hl as [|x l Hx Hl IH]; intros out; [done|].
  change (comma_tail (map f (x :: l)))
    with (char "," :: f x ++ comma_tail (map f l)).
  change (tokens_tail (map g (x :: l)))
    with (TComma :: g x ++ tokens_tail (map g l)).
  cbn [app]. rewrite lex_cons.
  change (lex_step Default (char ",")) with (Some ([TComma], Default)).
  rewrite <-app_assoc, Hx by by apply comma_tail_delimited.
  rewrite IH. cbn [rev_append]. by rewrite rev_append_app.
Qed.

Lemma lex_join l rest out :
  Forall (λ x, lexes (f x) (g x)) l →
  closing rest = true →
  lex Default (join_comma (map f l) ++ rest) out
  = lex Default rest (rev_append (join_tokens (map g l)) out).
Proof.
  intros Hl Hrest%closing_delimited. destruct Hl as [|x l Hx Hl]; [done|].
  change (join_comma (map f (x :: l))) with (f x ++ comma_tail (map f l)).
  change (join_tokens (map g (x :: l))) with (g x ++ tokens_tail (map g l)).
  rewrite <-app_assoc, Hx by by apply comma_tail_delimited.
  rewrite lex_tail by done. by rewrite rev_append_app.
Qed.
End join.

Lemma lexes_member k text ts :
  lexes text ts →
  lexes (QuoteJSONString k ++ char ":" :: text) (TStr k :: TColon :: ts).
Proof.
  intros H rest out Hrest.
  rewrite <-app_assoc, lex_QuoteJSONString. cbn [app]. rewrite lex_cons.
  change (lex_step Default (char ":")) with (Some ([TColon], Default)).
  by rewrite H.
Qed.

(** [JSON.parse] reads the text of [JSON.stringify] token by token. *)
Lemma lexes_stringify v : lexes (JSON_stringify v) (tokens v).
Proof.
  induction v as [|[]|n|s|items IH|props IH] using JsValue_ind.
  - by intros rest out _.
  - by intros rest out _.
  - by intros rest out _.
  - apply lexes_number.
  - apply lexes_string.
  - intros rest out Hrest.
    change (JSON_stringify (JArr items))
      with (char "[" :: join_comma (map JSON_stringify items) ++ [char "]"]).
    change (tokens (JArr items))
      with (TLBracket :: join_tokens (map tokens items) ++ [TRBracket]).
    cbn [app]. rewrite lex_cons.
    change (lex_step Default (char "[")) with (Some ([TLBracket], Default)).
    rewrite <-app_assoc, (lex_join _ tokens) by done.
    cbn [rev_append]. by rewrite rev_append_app.
  - intros rest out Hrest.
    change (JSON_stringify (JObj props))
      with (char "{"
              :: join_comma
                   (map (λ p, QuoteJSONString (fst p)
                                ++ char ":" :: JSON_stringify (snd p))
                        props)
              ++ [char "}"]).
    change (tokens (JObj props))
      with (TLBrace
              :: join_tokens
                   (map (λ p, TStr (fst p) :: TColon :: tokens (snd p)) props)
              ++ [TRBrace]).
    cbn [app]. rewrite lex_cons.
    change (lex_step Default (char "{")) with (Some ([TLBrace], Default)).
    rewrite <-app_assoc,
      (lex_join _ (λ p, TStr (fst p) :: TColon :: tokens (snd p))); [|..|done].
    + cbn [rev_append]. by rewrite rev_append_app.
    + eapply Forall_impl; [exact IH|]. intros p Hp. by apply lexes_member.
Qed.

Lemma lex_stringify v : lex Default (JSON_stringify v) [] = Some (tokens v).
Proof.
  rewrite <-(app_nil_r (JSON_stringify v)), lexes_stringify by done.
  cbn [lex lex_end]. by rewrite !rev_append_rev, !app_nil_r, rev_involutive.
Qed.

(** ** Parsing the tokens of [JSON_stringify] *)

Lemma tokens_head v :
  ∃ t ts, tokens v = t :: ts ∧ t ≠ TRBracket ∧ t ≠ TRBrace.
Proof. destruct v as [|[]|n|s|items|props]; by eexists _, _. Qed.

Lemma parse_value_array fuel t ts :
  t ≠ TRBracket →
  parse_value (S fuel) (TLBracket :: t :: ts)
  = match parse_value fuel (t :: ts) with
    | Some (v, ts') => parse_items fuel [v] ts'
    | None => None
    end.
Proof. by destruct t. Qed.

Lemma define_prop_fresh k v ps :
  k ∉ map fst ps → define_prop k v ps = ps ++ [(k, v)].
Proof.
  induction ps as [|p ps IH]; [done|]. cbn [map define_prop].
  rewrite not_elem_of_cons. intros [Hk Hps].
  rewrite bool_decide_eq_false_2 by done. by rewrite IH.
Qed.

Lemma parse_items_tail items :
  Forall parses items → forallb clean items = true →
  ∀ fuel acc rest,
    (length (tokens_tail (map tokens items)) < fuel)%nat →
    parse_items fuel acc (tokens_tail (map tokens items) ++ TRBracket :: rest)
    = Some (JArr (acc ++ items), rest).
Proof.
  induction 1 as [|x l Hx Hl IH]; intros Hclean fuel acc rest Hfuel.
  - destruct fuel as [|fuel]; [cbn in Hfuel; lia|]. cbn. by rewrite app_nil_r.
  - cbn [forallb] in Hclean. apply andb_prop in Hclean as [Hcx Hcl].
    change (tokens_tail (map tokens (x :: l)))
      with (TComma :: tokens x ++ tokens_tail (map tokens l)) in *.
    cbn [length] in Hfuel. rewrite length_app in Hfuel.
    destruct fuel as [|fuel]; [lia|].
    cbn [app parse_items]. rewrite <-app_assoc.
    rewrite (Hx Hcx) by lia. rewrite IH by (done || lia).
    by rewrite <-app_assoc.
Qed.

Lemma parse_members_tail props :
  Forall (λ p, parses (snd p)) props →
  forallb (λ p, negb (exotic_key (fst p)) && clean (snd p)) props = true →
  ∀ fuel acc rest,
    NoDup (map fst acc ++ map fst props) →
    (length (tokens_tail
               (map (λ p, TStr (fst p) :: TColon :: tokens (snd p)) props))
     < fuel)%nat →
    parse_members fuel acc
      (tokens_tail (map (λ p, TStr (fst p) :: TColon :: tokens (snd p)) props)
         ++ TRBrace :: rest)
    = Some (JObj (acc ++ props), rest).
Proof.
  induction 1 as [|[k v] l Hx Hl IH]; intros Hclean fuel acc rest Hdup Hfuel.
  - destruct fuel as [|fuel]; [cbn in Hfuel; lia|]. cbn. by rewrite app_nil_r.
  - cbn [forallb fst snd] in Hclean.
    apply andb_prop in Hclean as [[Hk Hcv]%andb_prop Hcl].
    apply negb_true_iff in Hk.
    change (tokens_tail (map ?f ((k, v) :: l)))
      with (TComma :: (TStr k :: TColon :: tokens v) ++ tokens_tail (map f l))
      in *.
    cbn [snd] in Hx. cbn [length] in Hfuel.
    rewrite length_app in Hfuel. cbn [length] in Hfuel.
    destruct fuel as [|fuel]; [lia|].
    cbn [app parse_members]. rewrite Hk, <-app_assoc.
    rewrite (Hx Hcv) by lia.
    apply NoDup_app in Hdup as (Hacc & Hdisj & Hkl).
    rewrite define_prop_fresh
      by (intros Hin; apply (Hdisj _ Hin); by left).
    rewrite IH; [by rewrite <-app_assoc|done|..|lia].
    rewrite map_app. cbn [map fst]. rewrite <-app_assoc. cbn [app].
    apply NoDup_app. split_and!; [done|..|done].
    intros x Hin. by apply Hdisj.
Qed.

Lemma parses_all v : parses v.
Proof.
  induction v as [|[]|n|s|items IH|props IH] using JsValue_ind;
    intros Hclean fuel rest Hfuel.
  1-5: destruct fuel as [|fuel]; [cbn in Hfuel; lia|done].
  - destruct IH as [|x l Hx Hl].
    { destruct fuel as [|fuel]; [cbn in Hfuel; lia|done]. }
    cbn [clean forallb] in Hclean. apply andb_prop in Hclean as [Hcx Hcl].
    cbn [tokens map join_tokens] in *. fold (tokens_tail (map tokens l)) in *.
    cbn [length] in Hfuel. rewrite !length_app in Hfuel. cbn [length] in Hfuel.
    destruct fuel as [|fuel]; [lia|].
    rewrite <-!app_comm_cons, <-!app_assoc.
    destruct (tokens_head x) as (t & ts & Ht & Ht1 & _).
    rewrite Ht, <-app_comm_cons, parse_value_array by done.
    rewrite app_comm_cons, <-Ht, (Hx Hcx) by lia.
    change ([TRBracket] ++ rest) with (TRBracket :: rest).
    rewrite (parse_items_tail l Hl Hcl) by lia. done.
  - destruct IH as [|[k v] l Hx Hl].
    { destruct fuel as [|fuel]; [cbn in Hfuel; lia|done]. }
    cbn [clean] in Hclean. apply andb_prop in Hclean as [Hdup Hclean].
    apply bool_decide_eq_true_1 in Hdup.
    cbn [forallb fst snd] in Hclean.
    apply andb_prop in Hclean as [[Hk Hcv]%andb_prop Hcl].
    apply negb_true_iff in Hk.
    cbn [tokens map join_tokens fst snd] in *.
    cbn [length] in Hfuel. rewrite !length_app in Hfuel. cbn [length] in Hfuel.
    destruct fuel as [|fuel]; [lia|].
    rewrite <-!app_comm_cons, <-!app_assoc. cbn [parse_value].
    rewrite Hk, (Hx Hcv) by lia.
    change ([TRBrace] ++ rest) with (TRBrace :: rest).
    rewrite (parse_members_tail l Hl Hcl) by (done || lia). done.
Qed.

(** [JSON.parse(JSON.stringify(v))] is [v]. *)
Lemma JSON_parse_stringify v :
  clean v = true → JSON_parse (JSON_stringify v) = Some v.
Proof.
  intros Hclean. unfold JSON_parse. rewrite lex_stringify.
  rewrite <-(app_nil_r (tokens v)) at 2.
  rewrite (parses_all v Hclean) by lia. done.
Qed.

(** ** The handlers of [TravelJournal] *)

Lemma truthy_true (s : jsstring) : truthy s = true ↔ s ≠ [].
Proof. by destruct s. Qed.

Lemma truthy_false (s : jsstring) : truthy s = false ↔ s = [].
Proof. by destruct s. Qed.

Lemma valid_check e :
  valid e →
  negb (truthy (Entry.title e)) || negb (truthy (Entry.date e))
  || negb (truthy (Entry.location e)) = false.
Proof.
  intros (Ht & Hd & Hl).
  apply truthy_true in Ht, Hd, Hl. by rewrite Ht, Hd, Hl.
Qed.

Lemma invalid_check e :
  Entry.title e = [] ∨ Entry.date e = [] ∨ Entry.location e = [] →
  negb (truthy (Entry.title e)) || negb (truthy (Entry.date e))
  || negb (truthy (Entry.location e)) = true.
Proof.
  intros [H|[H|H]]; apply truthy_false in H; rewrite H; cbn;
    by rewrite ?orb_true_r.
Qed.

Lemma handleSubmit_create w s form now :
  s = component w → newEntry s = Form.Full form →
  valid form → editMode s = false →
  run w (handleSubmit s now)
  = mkRun (mkState (isLoginPage s) (isSignUpPage s) (user s)
                   (entries s ++ [Entry.with_id form now])
                   (Form.Full Entry.empty) false None [])
          (localStorage w) true [PreventDefault].
Proof.
  intros -> Hform Hvalid Hmode. unfold run, handleSubmit. rewrite Hform. cbn.
  rewrite (valid_check _ Hvalid), Hmode. reflexivity.
Qed.

Lemma handleSubmit_edit w s form now (i : Z) :
  s = component w → newEntry s = Form.Full form →
  valid form → editMode s = true → editIndex s = Some i →
  run w (handleSubmit s now)
  = mkRun (mkState (isLoginPage s) (isSignUpPage s) (user s)
                   (imap (λ index entry,
                            if index_is index (Some i) then form else entry)
                         (entries s))
                   (Form.Full Entry.empty) false None [])
          (localStorage w) true [PreventDefault].
Proof.
  intros -> Hform Hvalid Hmode Hindex. unfold run, handleSubmit.
  rewrite Hform. cbn.
  rewrite (valid_check _ Hvalid), Hmode, Hindex. reflexivity.
Qed.

Lemma handleSubmit_invalid w s form now :
  s = component w → newEntry s = Form.Full form →
  Entry.title form = [] ∨ Entry.date form = [] ∨ Entry.location form = [] →
  run w (handleSubmit s now)
  = mkRun s (localStorage w) false
          [PreventDefault; Alert "タイトル、日付、場所は必須項目です。"].
Proof.
  intros -> Hform Hinvalid. unfold run, handleSubmit. rewrite Hform. cbn.
  rewrite (invalid_check _ Hinvalid). reflexivity.
Qed.

(** A form that is not an entry is never submitted: of [undefined] the read
    of [title] throws, and an object without [title] fails the check. *)
Lemma handleSubmit_stray w s now :
  s = component w → (∀ form, newEntry s ≠ Form.Full form) →
  run w (handleSubmit s now)
  = mkRun s (localStorage w) false
          [PreventDefault;
           match newEntry s with
           | Form.Undefined => Uncaught "TypeError"
           | _ => Alert "タイトル、日付、場所は必須項目です。"
           end].
Proof.
  intros -> Hstray. unfold run, handleSubmit.
  destruct (newEntry (component w)) as [|l i|form] eqn:Hform;
    [done..|by destruct (Hstray form)].
Qed.

(** [map] with the callback of the edit branch is an update in place. *)
Lemma imap_replace_beyond {A} (x : A) (index : Z) (k : nat) (l : list A) :
  (index < Z.of_nat k)%Z →
  imap (λ j entry, if index_is (k + j) (Some index) then x else entry) l = l.
Proof.
  revert k. induction l as [|y l IH]; intros k Hk; [done|].
  rewrite imap_cons. cbn [index_is].
  destruct (Z.eqb_spec (Z.of_nat (k + 0)) index); [lia|]. f_equal.
  etrans; [|apply (IH (S k)); lia].
  apply imap_ext. intros j z _. cbn. by rewrite Nat.add_succ_r.
Qed.

Lemma imap_replace_from {A} (x : A) (i k : nat) (l : list A) :
  imap (λ j entry,
          if index_is (k + j) (Some (Z.of_nat (k + i))) then x else entry) l
  = <[i := x]> l.
Proof.
  revert i k. induction l as [|y l IH]; intros i k; [done|].
  rewrite imap_cons. cbn [index_is]. destruct i as [|i].
  - rewrite Z.eqb_refl. cbn. f_equal.
    etrans; [|apply (imap_replace_beyond x (Z.of_nat (k + 0)) (S k) l); lia].
    apply imap_ext. intros j z _. cbn. by rewrite Nat.add_succ_r.
  - destruct (Z.eqb_spec (Z.of_nat (k + 0)) (Z.of_nat (k + S i))); [lia|].
    cbn. f_equal. etrans; [|apply (IH i (S k))].
    apply imap_ext. intros j z _. cbn. by rewrite !Nat.add_succ_r.
Qed.

Lemma imap_replace {A} (x : A) (i : nat) (l : list A) :
  imap (λ index entry, if index_is index (Some (Z.of_nat i)) then x else entry) l
  = <[i := x]> l.
Proof. apply (imap_replace_from x i 0). Qed.

(** [filter] with the callback of [handleDeleteEntry]. *)
Lemma filter_from_beyond {A} (index : Z) (k : nat) (l : list A) :
  (index < Z.of_nat k)%Z →
  filter_from (λ _ i, negb (Z.of_nat i =? index)%Z) k l = l.
Proof.
  revert k. induction l as [|x l IH]; intros k Hk; [done|].
  cbn [filter_from]. destruct (Z.eqb_spec (Z.of_nat k) index); [lia|].
  cbn. by rewrite IH by lia.
Qed.

Lemma filter_from_delete {A} (i k : nat) (l : list A) :
  filter_from (λ _ j, negb (Z.of_nat j =? Z.of_nat (k + i))%Z) k l = delete i l.
Proof.
  revert i k. induction l as [|x l IH]; intros i k; [by destruct i|].
  cbn [filter_from]. destruct i as [|i].
  - rewrite Nat.add_0_r, Z.eqb_refl. cbn. apply filter_from_beyond. lia.
  - destruct (Z.eqb_spec (Z.of_nat k) (Z.of_nat (k + S i))); [lia|].
    cbn. f_equal. etrans; [|apply (IH i (S k))]. by rewrite Nat.add_succ_r.
Qed.

Lemma Array_filter_delete {A} (i : nat) (l : list A) :
  Array_filter (λ _ j, negb (Z.of_nat j =? Z.of_nat i)%Z) l = delete i l.
Proof. apply (filter_from_delete i 0). Qed.

Lemma filter_from_short {A} (index : Z) (k : nat) (l : list A) :
  (Z.of_nat (k + length l) ≤ index)%Z →
  filter_from (λ _ i, negb (Z.of_nat i =? index)%Z) k l = l.
Proof.
  revert k. induction l as [|x l IH]; intros k Hk; [done|].
  cbn [filter_from]. cbn [length] in Hk.
  destruct (Z.eqb_spec (Z.of_nat k) index); [lia|].
  cbn. by rewrite IH by lia.
Qed.

Lemma Array_filter_out_of_range {A} (index : Z) (l : list A) :
  (index < 0 ∨ Z.of_nat (length l) ≤ index)%Z →
  Array_filter (λ _ j, negb (Z.of_nat j =? index)%Z) l = l.
Proof.
  intros [Hneg|Hbig]; [apply filter_from_beyond; lia|].
  apply filter_from_short. lia.
Qed.

Lemma handleDeleteEntry_run w s (index : Z) (answer : bool) :
  s = component w →
  run w (handleDeleteEntry s index answer)
  = mkRun (if answer
           then mkState (isLoginPage s) (isSignUpPage s) (user s)
                  (Array_filter (λ _ i, negb (Z.of_nat i =? index)%Z) (entries s))
                  (newEntry s) (editMode s) (editIndex s) (suggestions s)
           else s)
          (localStorage w) answer
          [Confirm "このエントリを削除してもよろしいですか？"].
Proof. intros ->. destruct answer; reflexivity. Qed.

(** ** Persistence *)

Lemma Entry_to_js_clean e : clean (Entry_to_js e) = true.
Proof. by destruct e as [t d l n [i|] [v|] [k|]]. Qed.

Lemma entries_to_js_clean es : clean (entries_to_js es) = true.
Proof.
  unfold entries_to_js. cbn [clean].
  induction es as [|e es IH]; [done|].
  cbn [map forallb]. by rewrite Entry_to_js_clean, IH.
Qed.

Lemma Entry_of_js_to_js e : Entry_of_js (Entry_to_js e) = Some e.
Proof. by destruct e as [t d l n [i|] [v|] [k|]]. Qed.

Lemma entries_of_js_to_js es : entries_of_js (entries_to_js es) = Some es.
Proof.
  unfold entries_to_js, entries_of_js.
  induction es as [|e es IH]; [done|].
  cbn [map mapM]. by rewrite Entry_of_js_to_js, IH.
Qed.

(** [JSON.parse(JSON.stringify(entries))] is [entries]. *)
Lemma JSON_parse_stringify_entries es :
  JSON_parse (JSON_stringify (entries_to_js es)) = Some (entries_to_js es).
Proof. apply JSON_parse_stringify, entries_to_js_clean. Qed.

(** The text of an array is not the empty string. *)
Lemma stringify_entries_truthy es :
  truthy (JSON_stringify (entries_to_js es)) = true.
Proof. reflexivity. Qed.

Lemma loadSavedEntries_persisted ls es :
  ls !! "journalEntries" = Some (JSON_stringify (entries_to_js es)) →
  loadSavedEntries true ls = Some (entries_to_js es).
Proof.
  intros Hls. unfold loadSavedEntries. rewrite Hls.
  by rewrite stringify_entries_truthy, JSON_parse_stringify_entries.
Qed.

(** The effect leaves the storage in step with the entries. *)
Lemma commit_persisted w h :
  window_defined w = true → entriesSet (run w h) = true →
  persisted (commit w h).
Proof.
  intros Hwin Hset. unfold persisted, commit. cbn [localStorage component].
  rewrite Hset, Hwin. apply lookup_insert_eq.
Qed.

(** C1. Entries are persisted by serialising on change: after every turn in
    which the entries list changed (a handler called [setEntries], so React
    renders with another array and runs the effect), the storage holds
    exactly [JSON.stringify(entries)] under ["journalEntries"], and
    [loadSavedEntries] on that storage returns the current list: the save
    and the load are a round trip. *)
Theorem entries_persisted_on_change (w : World) (h : Handler unit) :
  window_defined w = true →
  entriesSet (run w h) = true →
  let w' := commit w h in
  let entries' := entries (component w') in
  localStorage w' !! "journalEntries"
  = Some (JSON_stringify (entries_to_js entries'))
  ∧ loadSavedEntries (window_defined w') (localStorage w')
    = Some (entries_to_js entries')
  ∧ loadSavedEntries (window_defined w') (localStorage w') ≫= entries_of_js
    = Some entries'.
Proof.
  intros Hwin Hset w' entries'.
  pose proof (commit_persisted w h Hwin Hset) as Hp. fold w' in Hp.
  assert (loadSavedEntries (window_defined w') (localStorage w')
          = Some (entries_to_js entries')) as Hload.
  { change (window_defined w') with (window_defined w). rewrite Hwin.
    by apply loadSavedEntries_persisted. }
  split_and!; [done..|].
  rewrite Hload. apply entries_of_js_to_js.
Qed.

Lemma entries_persisted_on_change_witness :
  let w' := commit creating (handleSubmit (component creating) 1712102400000) in
  loadSavedEntries true (localStorage w') ≫= entries_of_js
  = Some [kyoto; nara; Entry.with_id draft 1712102400000].
Proof.
  refine (proj2 (proj2 (entries_persisted_on_change creating
                          (handleSubmit (component creating) 1712102400000) _ _)));
    reflexivity.
Defined.

(** *** The storage follows the entries along every run *)

(** No handler writes under ["journalEntries"], and a handler that did not
    call [setEntries] left the entries alone. *)
Lemma handler_frame w ev h :
  h = handler (component w) ev →
  storage (run w h) !! "journalEntries" = localStorage w !! "journalEntries"
  ∧ (entriesSet (run w h) = false →
     entries (pending (run w h)) = entries (component w)).
Proof.
  intros ->. destruct ev; cbn [handler].
  - split; [by apply lookup_delete_ne|done].
  - done.
  - unfold run, handleLocationChange, fetchSuggestions.
    destruct (2 <? length value)%nat; [|done].
    by destruct net as [[[] [found|err]]|err].
  - done.
  - unfold run, handleSubmit. cbn.
    destruct (newEntry (component w)) as [|l i|form]; [done..|].
    destruct (negb _ || negb _ || negb _); [done|].
    by destruct (editMode _), (editIndex _).
  - done.
  - by destruct answer.
  - done.
  - done.
  - done.
  - done.
  - done.
Qed.

Lemma handler_sets_entries_on_change w ev h :
  h = handler (component w) ev →
  entries (pending (run w h)) ≠ entries (component w) →
  entriesSet (run w h) = true.
Proof.
  intros Hh Hne. destruct (entriesSet (run w h)) eqn:Hset; [done|].
  destruct Hne. by apply (handler_frame w ev h).
Qed.

(** The first render leaves the storage in step with the entries. *)
Lemma mount_persisted ls w : mount true ls = Some w → persisted w.
Proof.
  unfold mount. intros Hm.
  destruct (loadSavedUser true ls ≫= User_of_js) as [u|]; [|done].
  destruct (loadSavedEntries true ls ≫= entries_of_js) as [es|]; [|done].
  cbn in Hm. simplify_eq. apply lookup_insert_eq.
Qed.

(** Every event keeps it so. *)
Lemma dispatch_persisted w ev :
  window_defined w = true → persisted w → persisted (dispatch w ev).
Proof.
  intros Hwin Hp. unfold dispatch.
  remember (handler (component w) ev) as h eqn:Hh.
  destruct (entriesSet (run w h)) eqn:Hset; [by apply commit_persisted|].
  destruct (handler_frame w ev h Hh) as [Hkey Hentries].
  unfold persisted, commit. cbn [localStorage component]. rewrite Hset.
  by rewrite Hkey, Hentries.
Qed.

Lemma dispatch_window w ev :
  window_defined (dispatch w ev) = window_defined w.
Proof. reflexivity. Qed.

Lemma reachable_window ls w : reachable ls w → window_defined w = true.
Proof.
  induction 1 as [w Hm|w ev _ IH].
  - unfold mount in Hm.
    destruct (loadSavedUser true ls ≫= User_of_js); [|done].
    destruct (loadSavedEntries true ls ≫= entries_of_js); [|done].
    cbn in Hm. by simplify_eq.
  - by rewrite dispatch_window.
Qed.

(** In the browser the storage mirrors the entries at every render, and
    loading it gives them back. *)
Lemma reachable_persisted ls w :
  reachable ls w →
  persisted w
  ∧ loadSavedEntries true (localStorage w) ≫= entries_of_js
    = Some (entries (component w)).
Proof.
  intros Hr. assert (persisted w) as Hp.
  { induction Hr as [w Hm|w ev Hr IH]; [by eapply mount_persisted|].
    apply dispatch_persisted; [|done]. by eapply reachable_window. }
  split; [done|].
  rewrite (loadSavedEntries_persisted _ _ Hp). apply entries_of_js_to_js.
Qed.

(** *** Side conditions of create and delete *)

(** The [id] of a created entry is new as long as the clock has moved on
    since the entries at hand were created. *)
Lemma created_id_is_new (now : Z) (e : Entry.t) (es : list Entry.t) :
  Forall (λ old, ∀ n, Entry.id old = Some n → (n < now)%Z) es →
  Forall (λ old, Entry.id old ≠ Entry.id (Entry.with_id e now)) es.
Proof.
  intros Hes. eapply Forall_impl; [exact Hes|].
  intros old Hold Heq. cbn in Heq. specialize (Hold now Heq). lia.
Qed.

(** [handleDeleteEntry] with an index outside the list deletes nothing. *)
Lemma delete_out_of_range w s (index : Z) :
  s = component w →
  (index < 0 ∨ Z.of_nat (length (entries s)) ≤ index)%Z →
  entries (pending (run w (handleDeleteEntry s index true))) = entries s.
Proof.
  intros -> Hout. rewrite (handleDeleteEntry_run w (component w)) by done.
  cbn [pending entries]. by apply Array_filter_out_of_range.
Qed.

(** ** Create, edit, delete *)

(** C2, as the claim has it, does not hold: the [id] of the created entry
    is what [Date.now()] returns and nothing makes it differ from the ids in
    the list.  A submission in the millisecond in which the one entry of the
    list was created gives two entries with the same [id]. *)
Lemma created_id_can_repeat :
  let s := component same_millisecond in
  let now := 1711929600000 in
  let created := Entry.with_id draft now in
  editMode s = false
  ∧ newEntry s = Form.Full draft
  ∧ valid draft
  ∧ entries (pending (run same_millisecond (handleSubmit s now)))
    = [kyoto; created]
  ∧ Entry.id created = Entry.id kyoto
  ∧ ¬ NoDup (map Entry.id
               (entries (pending (run same_millisecond (handleSubmit s now))))).
Proof.
  split_and!; [done..| |done|].
  - by repeat split.
  - cbn. intros Hnodup. apply NoDup_cons in Hnodup as [Hnotin _].
    apply Hnotin. by left.
Qed.

(** C2, corrected.  Creation appends to the end of the flat list: with
    [editMode] false and a form whose title, date and location are not
    empty, [handleSubmit] sets [entries] to the old list followed by one new
    entry, which has the fields of [newEntry] and as [id] what [Date.now()]
    returned; every entry that was there before keeps its value and its
    position.  The [id] differs from every [id] in the list when all of
    those are earlier than the clock. *)
Theorem create_appends_entry (w : World) (form : Entry.t) (now : Z) :
  editMode (component w) = false →
  newEntry (component w) = Form.Full form →
  Entry.title form ≠ [] →
  Entry.date form ≠ [] →
  Entry.location form ≠ [] →
  let s := component w in
  let created := Entry.with_id form now in
  let entries' := entries (pending (run w (handleSubmit s now))) in
  entries' = entries s ++ [created]
  ∧ length entries' = S (length (entries s))
  ∧ entries' !! length (entries s) = Some created
  ∧ (∀ i entry, entries s !! i = Some entry → entries' !! i = Some entry)
  ∧ Entry.title created = Entry.title form
  ∧ Entry.date created = Entry.date form
  ∧ Entry.location created = Entry.location form
  ∧ Entry.notes created = Entry.notes form
  ∧ Entry.image created = Entry.image form
  ∧ Entry.video created = Entry.video form
  ∧ Entry.id created = Some now
  ∧ (Forall (λ old, ∀ n, Entry.id old = Some n → (n < now)%Z) (entries s) →
     Forall (λ old, Entry.id old ≠ Entry.id created) (entries s)).
Proof.
  intros Hmode Hform Ht Hd Hl s created entries'.
  assert (entries' = entries s ++ [created]) as Heq.
  { unfold entries'. by rewrite (handleSubmit_create w s form now). }
  rewrite Heq. split_and!; try done.
  - rewrite length_app. cbn. lia.
  - by rewrite lookup_app_r, Nat.sub_diag.
  - intros i entry Hi. by apply lookup_app_l_Some.
  - apply created_id_is_new.
Qed.

Lemma create_appends_entry_witness :
  entries (pending (run creating (handleSubmit (component creating) 1712102400000)))
  = [kyoto; nara; Entry.with_id draft 1712102400000].
Proof.
  refine (proj1 (create_appends_entry creating draft 1712102400000 _ _ _ _ _));
    [reflexivity|reflexivity|discriminate..].
Defined.

(** C3. Editing changes the indexed entry only: with [editMode] true,
    [editIndex] a valid index [i] and a form whose title, date and location
    are not empty, [handleSubmit] puts [newEntry] at index [i]; every entry
    at another index and the length of the list are unchanged. *)
Theorem edit_replaces_indexed_entry
  (w : World) (form : Entry.t) (now : Z) (i : nat) :
  editMode (component w) = true →
  editIndex (component w) = Some (Z.of_nat i) →
  (i < length (entries (component w)))%nat →
  newEntry (component w) = Form.Full form →
  Entry.title form ≠ [] →
  Entry.date form ≠ [] →
  Entry.location form ≠ [] →
  let s := component w in
  let entries' := entries (pending (run w (handleSubmit s now))) in
  entries' = <[i := form]> (entries s)
  ∧ entries' !! i = Some form
  ∧ (∀ j, j ≠ i → entries' !! j = entries s !! j)
  ∧ length entries' = length (entries s).
Proof.
  intros Hmode Hindex Hi Hform Ht Hd Hl s entries'.
  assert (entries' = <[i := form]> (entries s)) as ->.
  { unfold entries'.
    rewrite (handleSubmit_edit w s form now (Z.of_nat i)) by done.
    cbn [pending entries]. apply imap_replace. }
  split_and!.
  - done.
  - by apply list_lookup_insert_eq.
  - intros j Hj. by apply list_lookup_insert_ne.
  - apply length_insert.
Qed.

Lemma edit_replaces_indexed_entry_witness :
  entries (pending (run editing (handleSubmit (component editing) 1712102400000)))
    !! 1%nat
  = Some (Entry.with_location nara (js "Nara Park")).
Proof.
  refine (proj1 (proj2 (edit_replaces_indexed_entry editing
                          (Entry.with_location nara (js "Nara Park"))
                          1712102400000 1 _ _ _ _ _ _ _)));
    [reflexivity|reflexivity|cbn; lia|reflexivity|discriminate..].
Defined.

(** C4. Deletion removes the indexed entry and nothing else: for a list of
    length [n] and an index [i] into it, [handleDeleteEntry(i)] with the
    deletion confirmed sets [entries] to the list without its element at
    index [i]; the result has length [n - 1] and the remaining entries keep
    their order: those before [i] stay in place, those after move down by
    one. *)
Theorem delete_removes_indexed_entry (w : World) (i : nat) :
  (i < length (entries (component w)))%nat →
  let s := component w in
  let entries' :=
    entries (pending (run w (handleDeleteEntry s (Z.of_nat i) true))) in
  entries' = delete i (entries s)
  ∧ entries' = take i (entries s) ++ drop (S i) (entries s)
  ∧ length entries' = (length (entries s) - 1)%nat
  ∧ (∀ j, (j < i)%nat → entries' !! j = entries s !! j)
  ∧ (∀ j, (i ≤ j)%nat → entries' !! j = entries s !! S j)
  ∧ sublist entries' (entries s).
Proof.
  intros Hi s entries'.
  assert (entries' = delete i (entries s)) as ->.
  { unfold entries'. rewrite (handleDeleteEntry_run w s) by done.
    cbn [pending entries].
    apply Array_filter_delete. }
  split_and!.
  - done.
  - apply delete_take_drop.
  - apply length_delete. by apply lookup_lt_is_Some.
  - intros j Hj. by apply list_lookup_delete_lt.
  - intros j Hj. by apply list_lookup_delete_ge.
  - apply sublist_delete.
Qed.

Lemma delete_removes_indexed_entry_witness :
  entries (pending (run creating (handleDeleteEntry (component creating) 0 true)))
  = [nara].
Proof.
  refine (proj1 (delete_removes_indexed_entry creating 0 _)). cbn; lia.
Defined.

(** C5. Title, date and location are required, image and video are not: when
    one of the three is empty, [handleSubmit] changes no state at all (the
    entries, [editMode], [editIndex], the form and the storage are as
    before) and only shows the alert; when none of the three is empty the
    submission goes through, whatever [image] and [video] hold. *)
Theorem submit_requires_title_date_location
  (w : World) (form : Entry.t) (now : Z) :
  newEntry (component w) = Form.Full form →
  let s := component w in
  let r := run w (handleSubmit s now) in
  (Entry.title form = [] ∨ Entry.date form = [] ∨ Entry.location form = [] →
   pending r = s
   ∧ storage r = localStorage w
   ∧ entriesSet r = false
   ∧ trace r = [PreventDefault; Alert "タイトル、日付、場所は必須項目です。"]
   ∧ component (commit w (handleSubmit s now)) = s
   ∧ localStorage (commit w (handleSubmit s now)) = localStorage w)
  ∧ (Entry.title form ≠ [] → Entry.date form ≠ [] → Entry.location form ≠ [] →
     entriesSet r = true ∧ trace r = [PreventDefault]).
Proof.
  intros Hform s r. split.
  - intros Hinvalid. unfold commit. fold r. unfold r.
    rewrite (handleSubmit_invalid w s form now) by done. by cbn.
  - intros Ht Hd Hl. subst r s. unfold run, handleSubmit. rewrite Hform. cbn.
    rewrite (valid_check form) by done.
    by destruct (editMode _), (editIndex _).
Qed.

Lemma submit_requires_title_date_location_witness :
  pending (run incomplete (handleSubmit (component incomplete) 1712102400000))
  = component incomplete
  ∧ entriesSet (run creating (handleSubmit (component creating) 1712102400000))
    = true.
Proof.
  split.
  - refine (proj1 (proj1 (submit_requires_title_date_location incomplete
                            _ _ eq_refl) _)).
    by left.
  - refine (proj1 (proj2 (submit_requires_title_date_location creating
                            draft _ eq_refl) _ _ _));
      discriminate.
Defined.

(** C10. Every submission that passes the check resets the editor: after
    [handleSubmit], in the create and in the edit branch alike, the form is
    the empty entry (title, date, location and notes empty, image and video
    null), the suggestions are empty, [editMode] is false and [editIndex] is
    null. *)
Theorem submit_resets_editor (w : World) (form : Entry.t) (now : Z) :
  newEntry (component w) = Form.Full form →
  Entry.title form ≠ [] →
  Entry.date form ≠ [] →
  Entry.location form ≠ [] →
  let s' := pending (run w (handleSubmit (component w) now)) in
  newEntry s' = Form.Full (Entry.mk [] [] [] [] None None None)
  ∧ suggestions s' = []
  ∧ editMode s' = false
  ∧ editIndex s' = None.
Proof.
  intros Hform Ht Hd Hl. unfold run, handleSubmit. rewrite Hform. cbn.
  rewrite (valid_check form) by done.
  by destruct (editMode _), (editIndex _).
Qed.

Lemma submit_resets_editor_witness :
  newEntry (pending (run editing (handleSubmit (component editing) 1712102400000)))
  = Form.Full (Entry.mk [] [] [] [] None None None).
Proof.
  refine (proj1 (submit_resets_editor editing
                   (Entry.with_location nara (js "Nara Park"))
                   1712102400000 eq_refl _ _ _));
    discriminate.
Defined.

(** ** The login gate *)

(** C7. Authentication gates the journal: in every state the component
    renders the entry form and the entry list exactly when [user] is not
    null, and renders the authentication form, i.e. what [renderAuthForm]
    returns, exactly when [user] is null.  The [AuthForm] component itself
    sits in that form once the login or the sign-up page was chosen. *)
Theorem authentication_gates_journal (s : State) :
  (shows is_EntryForm (TravelJournal s) = true
   ∧ shows is_EntryList (TravelJournal s) = true ↔ user s ≠ None)
  ∧ (TravelJournal s = renderMainContent s ↔ user s ≠ None)
  ∧ (TravelJournal s = renderAuthForm s ↔ user s = None)
  ∧ (shows is_AuthForm (TravelJournal s) = true
     ↔ user s = None ∧ isLoginPage s || isSignUpPage s = true).
Proof.
  unfold TravelJournal.
  destruct (user s) as [u|] eqn:Hu; unfold renderMainContent, renderAuthForm;
    rewrite ?Hu; cbn; destruct (isLoginPage s), (isSignUpPage s); cbn;
    split_and!; split; try done; intros []; done.
Qed.

Lemma commit_handleLogout w :
  commit w (handleLogout (component w))
  = mkWorld (window_defined w) (delete "user" (localStorage w))
      (let s := component w in
       mkState (isLoginPage s) (isSignUpPage s) None (entries s) (newEntry s)
               (editMode s) (editIndex s) (suggestions s))
      (effects w ++ []).
Proof. reflexivity. Qed.

(** C8. Logout does not touch the journal: [handleLogout] removes the key
    ["user"] from the storage and sets [user] to null; the entries and what
    the storage holds under ["journalEntries"] are as before, so the entries
    that [loadSavedEntries] finds are too. *)
Theorem logout_keeps_journal (w : World) :
  let w' := commit w (handleLogout (component w)) in
  localStorage w' !! "user" = None
  ∧ user (component w') = None
  ∧ entries (component w') = entries (component w)
  ∧ localStorage w' !! "journalEntries" = localStorage w !! "journalEntries"
  ∧ loadSavedEntries (window_defined w') (localStorage w')
    = loadSavedEntries (window_defined w) (localStorage w).
Proof.
  intros w'. subst w'. rewrite commit_handleLogout.
  cbn [localStorage component window_defined user entries].
  split_and!; try done.
  - apply lookup_delete_eq.
  - by apply lookup_delete_ne.
  - unfold loadSavedEntries. by rewrite lookup_delete_ne.
Qed.

(** ** Location autocomplete *)

Lemma handleLocationChange_short w s value net :
  s = component w → (length value ≤ 2)%nat →
  run w (handleLocationChange s value net)
  = mkRun (mkState (isLoginPage s) (isSignUpPage s) (user s) (entries s)
                   (Form.with_location (newEntry s) value)
                   (editMode s) (editIndex s) [])
          (localStorage w) false [].
Proof.
  intros -> Hlen. unfold run, handleLocationChange.
  cbn -[Nat.ltb length].
  destruct (Nat.ltb_spec 2 (length value)); [lia|reflexivity].
Qed.

Lemma handleLocationChange_long w s value net :
  s = component w → (2 < length value)%nat →
  run w (handleLocationChange s value net)
  = let url := js "https://api.example.com/suggestions?query=" ++ value in
    let form := Form.with_location (newEntry s) value in
    let failed err :=
      mkRun (mkState (isLoginPage s) (isSignUpPage s) (user s) (entries s)
                     form (editMode s) (editIndex s) (suggestions s))
            (localStorage w) false
            [Fetch url; ConsoleError "Error fetching suggestions:" err] in
    match net with
    | Throw err => failed err
    | Ok response =>
        if ok response then
          match json response with
          | Ok l =>
              mkRun (mkState (isLoginPage s) (isSignUpPage s) (user s)
                             (entries s) form (editMode s) (editIndex s) l)
                    (localStorage w) false [Fetch url]
          | Throw err => failed err
          end
        else failed "Failed to fetch suggestions"
    end.
Proof.
  intros -> Hlen. unfold run, handleLocationChange, fetchSuggestions.
  cbn -[Nat.ltb length app js].
  destruct (Nat.ltb_spec 2 (length value)); [|lia].
  by destruct net as [[[] [found|err]]|err].
Qed.

(** C9. Short input clears, failure preserves: [handleLocationChange] with a
    value of length at most 2 empties the suggestions and performs no effect
    at all, so no fetch; with a longer value whose fetch fails (the request
    throws, the response is not ok, or its body cannot be read) it leaves
    the suggestions as they were. *)
Theorem short_input_clears_failure_preserves
  (w : World) (value : jsstring) (net : Exn Response) :
  let s := component w in
  let r := run w (handleLocationChange s value net) in
  ((length value ≤ 2)%nat →
   suggestions (pending r) = [] ∧ trace r = [])
  ∧ ((2 < length value)%nat →
     (∃ err, net = Throw err)
     ∨ (∃ response, net = Ok response ∧ ok response = false)
     ∨ (∃ response err, net = Ok response ∧ json response = Throw err) →
     suggestions (pending r) = suggestions s).
Proof.
  intros s r. split.
  - intros Hlen. subst r. by rewrite (handleLocationChange_short w s).
  - intros Hlen Hfail. subst r. rewrite (handleLocationChange_long w s) by done.
    destruct Hfail as [[err ->]|[(response & -> & Hok)|(response & err & -> & Hjson)]].
    + done.
    + by rewrite Hok.
    + rewrite Hjson. by destruct (ok response).
Qed.

Lemma short_input_clears_failure_preserves_witness :
  suggestions
    (pending (run incomplete (handleLocationChange (component incomplete)
                                kyoto_ja (Throw "offline"))))
  = []
  ∧ suggestions
      (pending (run incomplete (handleLocationChange (component incomplete)
                                  kyoto_shi_ja (Throw "offline"))))
    = [{| place_id := 7; description := js "Osaka, Japan" |}].
Proof.
  split.
  - refine (proj1 (proj1 (short_input_clears_failure_preserves
                            incomplete kyoto_ja _) _)).
    cbn; lia.
  - refine (proj2 (short_input_clears_failure_preserves
                     incomplete kyoto_shi_ja _) _ _).
    + cbn; lia.
    + left. by eexists.
Defined.

(** C6 does not hold as it is stated: a change event with a value of two
    code units sets no request off, and the suggestions the endpoint would
    have returned are not stored. *)
Lemma two_letter_input_is_not_fetched :
  let found := [{| place_id := 7; description := js "Osaka, Japan" |}] in
  let net := Ok {| ok := true; json := Ok found |} in
  let r := run incomplete (handleLocationChange (component incomplete) (js "Os") net) in
  (Fetch (js "https://api.example.com/suggestions?query=Os") ∉ trace r)
  ∧ suggestions (pending r) ≠ found.
Proof.
  intros found net r. subst r.
  rewrite (handleLocationChange_short incomplete (component incomplete));
    [|done|cbn; lia].
  cbn [trace pending suggestions]. split; [apply not_elem_of_nil|done].
Qed.

(** C6, amended.  For every change event on the location input,
    [handleLocationChange] sets [newEntry.location] to the typed value.  When
    the value is longer than 2 code units it fetches suggestions from the
    endpoint for that value and, when the fetch succeeds, stores what it
    fetched in the suggestions; when the value has at most 2 code units it
    does not fetch and empties the suggestions. *)
Theorem location_change_fetches_long_input
  (w : World) (value : jsstring) (net : Exn Response) :
  let s := component w in
  let r := run w (handleLocationChange s value net) in
  let url := js "https://api.example.com/suggestions?query=" ++ value in
  newEntry (pending r) = Form.with_location (newEntry s) value
  ∧ Form.location (newEntry (pending r)) = Some value
  ∧ ((2 < length value)%nat →
     (∃ after, trace r = Fetch url :: after)
     ∧ ∀ response found,
         net = Ok response → ok response = true → json response = Ok found →
         suggestions (pending r) = found ∧ trace r = [Fetch url])
  ∧ ((length value ≤ 2)%nat →
     trace r = [] ∧ suggestions (pending r) = []).
Proof.
  intros s r url.
  destruct (Nat.le_gt_cases (length value) 2) as [Hlen|Hlen].
  - subst r. rewrite (handleLocationChange_short w s) by done.
    split_and!; try done; [by destruct (newEntry s)|intros; lia].
  - subst r. rewrite (handleLocationChange_long w s) by done. cbv zeta.
    split_and!.
    + destruct net as [response|err]; [|done].
      destruct (ok response); [|done]. by destruct (json response).
    + assert (Form.location (Form.with_location (newEntry s) value)
              = Some value) as Hlocation by (by destruct (newEntry s)).
      destruct net as [response|err]; [|done].
      destruct (ok response); [|done]. by destruct (json response).
    + intros _. split.
      * destruct net as [response|err]; [|by eexists].
        destruct (ok response); [|by eexists].
        destruct (json response); by eexists.
      * intros response found -> Hok Hjson. by rewrite Hok, Hjson.
    + intros; lia.
Qed.

Lemma location_change_fetches_long_input_witness :
  suggestions
    (pending (run incomplete
                (handleLocationChange (component incomplete) (js "Osa")
                   (Ok {| ok := true; json := Ok [] |}))))
  = [].
Proof.
  refine (proj1 (proj2 (proj1 (proj2 (proj2
            (location_change_fetches_long_input incomplete (js "Osa") _))) _)
            {| ok := true; json := Ok [] |} [] eq_refl eq_refl eq_refl)).
  cbn; lia.
Defined.

(** * More of the component *)

(** ** Entering edit mode *)

Lemma Array_get_nat {A} (l : list A) (i : nat) : Array_get l (Z.of_nat i) = l !! i.
Proof.
  unfold Array_get. destruct (Z.leb_spec 0 (Z.of_nat i)); [|lia].
  by rewrite Nat2Z.id.
Qed.

Lemma Array_get_None {A} (l : list A) (index : Z) :
  Array_get l index = None ↔ (index < 0 ∨ Z.of_nat (length l) ≤ index)%Z.
Proof.
  unfold Array_get. destruct (Z.leb_spec 0 index) as [Hpos|Hneg].
  - rewrite lookup_ge_None. lia.
  - split; [lia|done].
Qed.

(** The state that [handleEditEntry] queues. *)
Lemma handleEditEntry_run w s index :
  s = component w →
  run w (handleEditEntry s index)
  = mkRun (mkState (isLoginPage s) (isSignUpPage s) (user s) (entries s)
                   (Form.of_element (Array_get (entries s) index))
                   true (Some index) (suggestions s))
          (localStorage w) false [].
Proof. by intros ->. Qed.

Lemma commit_component w h : component (commit w h) = pending (run w h).
Proof. reflexivity. Qed.

(** X1. [handleEditEntry] does not check its index.  Whatever the index, it
    turns [editMode] on and records the index, and leaves the entries, the
    user, the suggestions and the storage alone.  For an index into the list
    the form holds that entry afterwards.  For an index outside the list
    (negative, or at or beyond the length) the form holds [undefined]
    afterwards, and a submission then throws a [TypeError] after
    [preventDefault] and changes neither the state nor the storage. *)
Theorem edit_entry_loads_indexed_entry (w : World) (index : Z) :
  let w' := dispatch w (EditEntry index) in
  editMode (component w') = true
  ∧ editIndex (component w') = Some index
  ∧ entries (component w') = entries (component w)
  ∧ user (component w') = user (component w)
  ∧ suggestions (component w') = suggestions (component w)
  ∧ localStorage w' = localStorage w
  ∧ effects w' = effects w
  ∧ (∀ (i : nat) entry,
       index = Z.of_nat i → entries (component w) !! i = Some entry →
       newEntry (component w') = Form.Full entry)
  ∧ ((index < 0 ∨ Z.of_nat (length (entries (component w))) ≤ index)%Z →
     newEntry (component w') = Form.Undefined
     ∧ ∀ now,
         let w'' := dispatch w' (Submit now) in
         component w'' = component w'
         ∧ localStorage w'' = localStorage w'
         ∧ effects w'' = effects w' ++ [PreventDefault; Uncaught "TypeError"]).
Proof.
  intros w'.
  assert (w' = mkWorld (window_defined w) (localStorage w)
                 (let s := component w in
                  mkState (isLoginPage s) (isSignUpPage s) (user s) (entries s)
                          (Form.of_element (Array_get (entries s) index))
                          true (Some index) (suggestions s))
                 (effects w)) as Hw'.
  { unfold w', dispatch, commit. cbn [handler].
    rewrite (handleEditEntry_run w (component w)) by done.
    cbn [pending storage entriesSet trace]. by rewrite app_nil_r. }
  clearbody w'. subst w'.
  cbn [component localStorage effects editMode editIndex entries user
       suggestions newEntry].
  split_and!; try done.
  - intros i entry -> Hi. by rewrite Array_get_nat, Hi.
  - intros Hout. apply Array_get_None in Hout. rewrite Hout.
    split; [done|]. intros now.
    unfold dispatch, commit. cbn [handler].
    by rewrite (handleSubmit_stray _ _ now eq_refl).
Qed.

Lemma edit_entry_loads_indexed_entry_witness :
  newEntry (component (dispatch creating (EditEntry 1))) = Form.Full nara
  ∧ newEntry (component stray_edit) = Form.Undefined.
Proof.
  split.
  - exact (proj1 (proj2 (proj2 (proj2 (proj2 (proj2 (proj2 (proj2
             (edit_entry_loads_indexed_entry creating 1))))))))
             1%nat nara eq_refl eq_refl).
  - refine (proj1 (proj2 (proj2 (proj2 (proj2 (proj2 (proj2 (proj2 (proj2
              (edit_entry_loads_indexed_entry creating 2)))))))) _)).
    right. cbn. lia.
Defined.

(** What [handleEditEntry] leaves for an index into the list. *)
Lemma dispatch_EditEntry w (i : nat) entry :
  entries (component w) !! i = Some entry →
  component (dispatch w (EditEntry (Z.of_nat i)))
  = let s := component w in
    mkState (isLoginPage s) (isSignUpPage s) (user s) (entries s)
            (Form.Full entry) true (Some (Z.of_nat i)) (suggestions s).
Proof.
  intros Hi. unfold dispatch. cbn [handler].
  rewrite commit_component, (handleEditEntry_run w (component w)) by done.
  cbn [pending]. by rewrite Array_get_nat, Hi.
Qed.

(** What the check of [handleSubmit] makes of a form. *)
Lemma check_cases e :
  valid e
  ∨ (Entry.title e = [] ∨ Entry.date e = [] ∨ Entry.location e = []).
Proof.
  unfold valid.
  destruct (Entry.title e), (Entry.date e), (Entry.location e); auto.
Qed.

(** X2. Opening an entry for editing and submitting it as it is changes no
    entry: the list after the two turns is the list before.  When the entry
    passes the check the form is reset and [editMode] is off again. *)
Theorem edit_then_submit_keeps_entries
  (w : World) (i : nat) (entry : Entry.t) (now : Z) :
  entries (component w) !! i = Some entry →
  let w1 := dispatch w (EditEntry (Z.of_nat i)) in
  let w2 := dispatch w1 (Submit now) in
  entries (component w2) = entries (component w)
  ∧ (Entry.title entry ≠ [] → Entry.date entry ≠ []
     → Entry.location entry ≠ [] →
     newEntry (component w2) = Form.Full Entry.empty
     ∧ editMode (component w2) = false
     ∧ editIndex (component w2) = None).
Proof.
  intros Hi w1 w2.
  assert (component w1
          = let s := component w in
            mkState (isLoginPage s) (isSignUpPage s) (user s) (entries s)
                    (Form.Full entry) true (Some (Z.of_nat i)) (suggestions s))
    as Hw1 by apply (dispatch_EditEntry w i entry Hi).
  clearbody w1. cbv zeta in Hw1.
  unfold w2, dispatch. cbn [handler]. rewrite !commit_component.
  destruct (check_cases entry) as [Hvalid|Hinvalid].
  - rewrite (handleSubmit_edit w1 (component w1) entry now (Z.of_nat i));
      [|done|by rewrite ?Hw1..].
    rewrite Hw1. cbn [pending entries newEntry editMode editIndex].
    rewrite imap_replace, list_insert_id by done. done.
  - rewrite (handleSubmit_invalid w1 (component w1) entry now);
      [|done|by rewrite Hw1|done].
    rewrite Hw1. cbn [pending entries]. split; [done|].
    intros Ht Hd Hl. by destruct Hinvalid as [?|[?|?]].
Qed.

Lemma edit_then_submit_keeps_entries_witness :
  entries (component (dispatch (dispatch creating (EditEntry 0))
                               (Submit 1712102400000)))
  = [kyoto; nara].
Proof.
  exact (proj1 (edit_then_submit_keeps_entries creating 0 kyoto 1712102400000
                  eq_refl)).
Defined.

(** ** Deleting *)

(** X3. [handleDeleteEntry] asks before it deletes and touches the entries
    only: whatever the answer, the form, [editMode], [editIndex], the
    suggestions and the user are as before.  When the user declines, the
    entries are the same array and nothing is written to the storage; when
    the index is outside the list, a confirmed deletion removes no entry. *)
Theorem delete_changes_entries_only (w : World) (index : Z) (answer : bool) :
  let s := component w in
  let w' := commit w (handleDeleteEntry s index answer) in
  effects w' = effects w ++ [Confirm "このエントリを削除してもよろしいですか？"]
  ∧ newEntry (component w') = newEntry s
  ∧ editMode (component w') = editMode s
  ∧ editIndex (component w') = editIndex s
  ∧ suggestions (component w') = suggestions s
  ∧ user (component w') = user s
  ∧ (answer = false →
     component w' = s ∧ localStorage w' = localStorage w)
  ∧ ((index < 0 ∨ Z.of_nat (length (entries s)) ≤ index)%Z →
     entries (component w') = entries s).
Proof.
  intros s w'. subst w'. unfold commit.
  rewrite (handleDeleteEntry_run w s) by done.
  destruct answer;
    cbn [effects component localStorage pending trace entriesSet storage
         newEntry editMode editIndex suggestions user entries];
    split_and!; try done.
  intros Hout. by apply Array_filter_out_of_range.
Qed.

Lemma delete_changes_entries_only_witness :
  component (commit creating (handleDeleteEntry (component creating) 0 false))
  = component creating
  ∧ entries (component (commit creating
                          (handleDeleteEntry (component creating) 2 true)))
    = [kyoto; nara].
Proof.
  split.
  - destruct (delete_changes_entries_only creating 0 false)
      as (_ & _ & _ & _ & _ & _ & Hno & _).
    exact (proj1 (Hno eq_refl)).
  - destruct (delete_changes_entries_only creating 2 true)
      as (_ & _ & _ & _ & _ & _ & _ & Hout).
    apply Hout. right. cbn. lia.
Defined.

(** [map] with the callback of the edit branch, for any index. *)
Lemma imap_replace_Z {A} (x : A) (index : Z) (l : list A) :
  imap (λ j entry, if index_is j (Some index) then x else entry) l
  = if (0 <=? index)%Z then <[Z.to_nat index := x]> l else l.
Proof.
  destruct (Z.leb_spec 0 index) as [Hpos|Hneg].
  - pose proof (imap_replace x (Z.to_nat index) l) as H.
    by rewrite Z2Nat.id in H.
  - apply (imap_replace_beyond x index 0 l). lia.
Qed.

(** X4. A submission in edit mode whose index is outside the list (negative,
    or at or beyond the length) changes no entry and still resets the
    editor: what was typed into the form is dropped. *)
Theorem edit_outside_list_is_dropped
  (w : World) (form : Entry.t) (now index : Z) :
  editMode (component w) = true →
  editIndex (component w) = Some index →
  (index < 0 ∨ Z.of_nat (length (entries (component w))) ≤ index)%Z →
  newEntry (component w) = Form.Full form →
  Entry.title form ≠ [] →
  Entry.date form ≠ [] →
  Entry.location form ≠ [] →
  let w' := commit w (handleSubmit (component w) now) in
  entries (component w') = entries (component w)
  ∧ newEntry (component w') = Form.Full Entry.empty
  ∧ editMode (component w') = false
  ∧ editIndex (component w') = None
  ∧ effects w' = effects w ++ [PreventDefault].
Proof.
  intros Hmode Hindex Hout Hform Ht Hd Hl w'. subst w'. unfold commit.
  rewrite (handleSubmit_edit w (component w) form now index) by done.
  cbn [component pending entries newEntry editMode editIndex effects trace].
  split_and!; try done.
  rewrite imap_replace_Z. destruct (Z.leb_spec 0 index); [|done].
  apply list_insert_ge. lia.
Qed.

Lemma edit_outside_list_is_dropped_witness :
  entries (component (commit stale_edit
                        (handleSubmit (component stale_edit) 1712102400000)))
  = [kyoto].
Proof.
  refine (proj1 (edit_outside_list_is_dropped stale_edit
                   (Entry.with_location nara (js "Nara Park"))
                   1712102400000 1 _ _ _ _ _ _ _));
    [reflexivity|reflexivity|right; by vm_compute|reflexivity|discriminate..].
Defined.

(** X5. [handleDeleteEntry] does not leave edit mode, so the index under
    edit goes stale: deleting entry [j] and then submitting the form that was
    opened for index [i] writes the form at index [i] of the shortened list.
    With [j ≤ i] and an entry after [i], that overwrites the entry that
    followed the one under edit; with [j ≤ i] and [i] the last index, the
    edit is lost. *)
Theorem delete_while_editing_shifts_target
  (w : World) (form : Entry.t) (i j : nat) (now : Z) :
  editMode (component w) = true →
  editIndex (component w) = Some (Z.of_nat i) →
  newEntry (component w) = Form.Full form →
  Entry.title form ≠ [] →
  Entry.date form ≠ [] →
  Entry.location form ≠ [] →
  let s := component w in
  let w1 := commit w (handleDeleteEntry s (Z.of_nat j) true) in
  let w2 := commit w1 (handleSubmit (component w1) now) in
  entries (component w2) = <[i := form]> (delete j (entries s))
  ∧ ((j ≤ i)%nat → (S i < length (entries s))%nat →
     entries (component w2) !! i = Some form
     ∧ (∀ k, (k < j)%nat → entries (component w2) !! k = entries s !! k)
     ∧ (∀ k, (j ≤ k)%nat → k ≠ i →
          entries (component w2) !! k = entries s !! S k))
  ∧ ((j ≤ i)%nat → (i < length (entries s))%nat →
     (length (entries s) ≤ S i)%nat →
     entries (component w2) = delete j (entries s)).
Proof.
  intros Hmode Hindex Hform Ht Hd Hl s w1 w2.
  assert (component w1
          = mkState (isLoginPage s) (isSignUpPage s) (user s)
                    (delete j (entries s)) (newEntry s) (editMode s)
                    (editIndex s) (suggestions s)) as Hw1.
  { unfold w1. rewrite commit_component, (handleDeleteEntry_run w s) by done.
    cbn [pending]. by rewrite Array_filter_delete. }
  assert (entries (component w2) = <[i := form]> (delete j (entries s)))
    as Hw2.
  { unfold w2. rewrite commit_component.
    rewrite (handleSubmit_edit w1 (component w1) form now (Z.of_nat i));
      [|done|by rewrite ?Hw1..].
    rewrite Hw1. cbn [pending entries]. apply imap_replace. }
  rewrite Hw2. split_and!.
  - done.
  - intros Hji Hi. split_and!.
    + apply list_lookup_insert_eq.
      rewrite length_delete by (apply lookup_lt_is_Some; lia). lia.
    + intros k Hk. rewrite list_lookup_insert_ne by lia.
      by apply list_lookup_delete_lt.
    + intros k Hk Hki. rewrite list_lookup_insert_ne by done.
      by apply list_lookup_delete_ge.
  - intros Hji Hi Hlast. apply list_insert_ge.
    rewrite length_delete by (apply lookup_lt_is_Some; lia). lia.
Qed.

Lemma delete_while_editing_shifts_target_witness :
  entries (component
    (commit (commit editing (handleDeleteEntry (component editing) 0 true))
       (handleSubmit
          (component (commit editing
                        (handleDeleteEntry (component editing) 0 true)))
          1712102400000)))
  = [nara].
Proof.
  refine (proj2 (proj2 (delete_while_editing_shifts_target editing
                          (Entry.with_location nara (js "Nara Park")) 1 0
                          1712102400000 _ _ _ _ _ _)) _ _ _);
    try reflexivity; try discriminate; cbn; lia.
Defined.

(** X6. Creating an entry and deleting the last entry undo each other: a
    valid submission outside edit mode followed by a confirmed deletion at
    the old length gives back the list as it was, and in a browser the
    storage holds that list again. *)
Theorem create_then_delete_last_restores
  (w : World) (form : Entry.t) (now : Z) :
  editMode (component w) = false →
  newEntry (component w) = Form.Full form →
  Entry.title form ≠ [] →
  Entry.date form ≠ [] →
  Entry.location form ≠ [] →
  let s := component w in
  let w1 := commit w (handleSubmit s now) in
  let w2 :=
    commit w1 (handleDeleteEntry (component w1)
                 (Z.of_nat (length (entries s))) true) in
  entries (component w2) = entries s
  ∧ (window_defined w = true →
     localStorage w2 !! "journalEntries"
     = Some (JSON_stringify (entries_to_js (entries s)))).
Proof.
  intros Hmode Hform Ht Hd Hl s w1 w2.
  assert (entries (component w1) = entries s ++ [Entry.with_id form now])
    as Hw1.
  { unfold w1. by rewrite commit_component, (handleSubmit_create w s form now). }
  assert (entries (component w2) = entries s) as Hw2.
  { unfold w2. rewrite commit_component.
    rewrite (handleDeleteEntry_run w1 (component w1)) by done.
    cbn [pending entries]. rewrite Array_filter_delete, Hw1.
    by rewrite delete_middle, app_nil_r. }
  split; [done|]. intros Hwin. rewrite <-Hw2.
  apply (commit_persisted w1); [done|].
  by rewrite (handleDeleteEntry_run w1 (component w1)).
Qed.

Lemma create_then_delete_last_restores_witness :
  entries (component
    (commit (commit creating (handleSubmit (component creating) 1712102400000))
       (handleDeleteEntry
          (component (commit creating
                        (handleSubmit (component creating) 1712102400000)))
          2 true)))
  = [kyoto; nara].
Proof.
  refine (proj1 (create_then_delete_last_restores creating draft 1712102400000
                   _ _ _ _ _));
    [reflexivity|reflexivity|discriminate..].
Defined.

(** ** Logging out and in *)

(** X7. Logging out and logging in again changes who is signed in and
    nothing else in the component: the entries, the form with its draft,
    [editMode], [editIndex] and the suggestions are those of before, so the
    next user sees them; the key ["user"] is gone from the storage and
    [handleAuthSuccess] does not write it back. *)
Theorem logout_login_keeps_draft (w : World) (userData : User) :
  let w1 := commit w (handleLogout (component w)) in
  let w2 := commit w1 (handleAuthSuccess (component w1) userData) in
  user (component w2) = Some userData
  ∧ entries (component w2) = entries (component w)
  ∧ newEntry (component w2) = newEntry (component w)
  ∧ editMode (component w2) = editMode (component w)
  ∧ editIndex (component w2) = editIndex (component w)
  ∧ suggestions (component w2) = suggestions (component w)
  ∧ localStorage w2 = delete "user" (localStorage w)
  ∧ TravelJournal (component w2)
    = Fragment [Header (if truthy (email userData) then email userData else []);
                EntryForm (newEntry (component w)) (editMode (component w))
                          (suggestions (component w));
                EntryList (entries (component w))].
Proof. by split_and!. Qed.

(** ** What the component does to the storage *)

Lemma handler_storage w ev h :
  h = handler (component w) ev →
  storage (run w h) = localStorage w
  ∨ ev = Logout ∧ storage (run w h) = delete "user" (localStorage w).
Proof.
  intros ->. destruct ev; cbn [handler]; try by left.
  - by right.
  - left. unfold run, handleLocationChange, fetchSuggestions.
    destruct (2 <? length value)%nat; [|done].
    by destruct net as [[[] [found|err]]|err].
  - left. unfold run, handleSubmit. cbn.
    destruct (newEntry (component w)) as [|l i|form]; [done..|].
    destruct (negb _ || negb _ || negb _); [done|].
    by destruct (editMode _), (editIndex _).
  - left. by destruct answer.
Qed.

Lemma dispatch_storage (w : World) (ev : Event) (w' : World) :
  dispatch w ev = w' →
  (∀ key, key ≠ "journalEntries" → key ≠ "user" →
     localStorage w' !! key = localStorage w !! key)
  ∧ (localStorage w' !! "user" = localStorage w !! "user"
     ∨ ev = Logout ∧ localStorage w' !! "user" = None)
  ∧ (localStorage w' !! "journalEntries" = localStorage w !! "journalEntries"
     ∨ localStorage w' !! "journalEntries"
       = Some (JSON_stringify (entries_to_js (entries (component w'))))).
Proof.
  unfold dispatch. remember (handler (component w) ev) as h eqn:Hh.
  intros <-.
  destruct (handler_frame w ev h Hh) as [Hkey _].
  unfold commit. cbn [localStorage component].
  assert (∀ key, key ≠ "journalEntries" →
            (if entriesSet (run w h)
             then persistEntries (window_defined w) (entries (pending (run w h)))
                    (storage (run w h))
             else storage (run w h)) !! key
            = storage (run w h) !! key) as Hother.
  { intros key Hne. destruct (entriesSet _); [|done].
    unfold persistEntries. destruct (window_defined w); [|done].
    by rewrite lookup_insert_ne. }
  split_and!.
  - intros key Hj Hu. rewrite Hother by done.
    destruct (handler_storage w ev h Hh) as [->|[_ ->]]; [done|].
    by rewrite lookup_delete_ne.
  - rewrite Hother by done.
    destruct (handler_storage w ev h Hh) as [->|[-> ->]]; [by left|].
    right. split; [done|]. apply lookup_delete_eq.
  - destruct (entriesSet (run w h)); [|by left].
    unfold persistEntries. destruct (window_defined w); [|by left].
    right. apply lookup_insert_eq.
Qed.

(** X8. The component writes one key only: along any event, every key but
    ["journalEntries"] and ["user"] keeps its value, ["user"] is either kept
    or removed (never written), and ["journalEntries"] is either kept or set
    to the text of the entries of the new render. *)
Theorem storage_writes_journalEntries_only (w : World) (ev : Event) (w' : World) :
  dispatch w ev = w' →
  (∀ key, key ≠ "journalEntries" → key ≠ "user" →
     localStorage w' !! key = localStorage w !! key)
  ∧ (localStorage w' !! "user" = localStorage w !! "user"
     ∨ ev = Logout ∧ localStorage w' !! "user" = None)
  ∧ (localStorage w' !! "journalEntries" = localStorage w !! "journalEntries"
     ∨ localStorage w' !! "journalEntries"
       = Some (JSON_stringify (entries_to_js (entries (component w'))))).
Proof. apply dispatch_storage. Qed.

Lemma storage_writes_journalEntries_only_witness :
  localStorage (commit creating (handleLogout (component creating)))
    !! "theme"
  = localStorage creating !! "theme".
Proof.
  refine (proj1 (storage_writes_journalEntries_only creating Logout _ eq_refl)
            "theme" _ _); discriminate.
Defined.

(** ** Reloading the page *)

Lemma mount_inv window ls w :
  mount window ls = Some w →
  ∃ u es,
    loadSavedUser window ls ≫= User_of_js = Some u
    ∧ loadSavedEntries window ls ≫= entries_of_js = Some es
    ∧ w = mkWorld window (persistEntries window es ls)
            (mkState false false u es (Form.Full Entry.empty) false None [])
            [].
Proof.
  unfold mount. intros Hm.
  destruct (loadSavedUser window ls ≫= User_of_js) as [u|]; [|done].
  destruct (loadSavedEntries window ls ≫= entries_of_js) as [es|]; [|done].
  cbn in Hm. simplify_eq. by exists u, es.
Qed.

Lemma loadSavedUser_key ls1 ls2 :
  ls1 !! "user" = ls2 !! "user" → loadSavedUser true ls1 = loadSavedUser true ls2.
Proof. unfold loadSavedUser. by intros ->. Qed.

(** The stored user can be read at every render, since the component only
    ever removes it. *)
Lemma reachable_user_loads ls w :
  reachable ls w →
  ∃ u, loadSavedUser true (localStorage w) ≫= User_of_js = Some u.
Proof.
  induction 1 as [w Hm|w ev Hr [u IH]].
  - destruct (mount_inv _ _ _ Hm) as (u & es & Hu & _ & ->).
    exists u. rewrite <-Hu. f_equal. apply loadSavedUser_key.
    cbn [localStorage]. unfold persistEntries. by rewrite lookup_insert_ne.
  - destruct (dispatch_storage w ev _ eq_refl) as (_ & [Hsame|[_ Hgone]] & _).
    + exists u. rewrite <-IH. f_equal. by apply loadSavedUser_key.
    + exists None. unfold loadSavedUser. by rewrite Hgone.
Qed.

(** X9. Reloading the page brings the entries back and nothing else of the
    session: from any state the component reaches in a browser, a first
    render on the storage as it is then succeeds, shows the same entries,
    an empty form outside edit mode and no suggestions, and leaves the
    storage as it was. *)
Theorem reload_restores_entries (ls : gmap string jsstring) (w : World) :
  reachable ls w →
  ∃ u,
    mount true (localStorage w)
    = Some (mkWorld true (localStorage w)
              (mkState false false u (entries (component w))
                       (Form.Full Entry.empty) false None [])
              []).
Proof.
  intros Hr.
  destruct (reachable_user_loads ls w Hr) as [u Hu].
  destruct (reachable_persisted ls w Hr) as [Hp Hes].
  exists u. unfold mount. rewrite Hu, Hes. cbn. do 2 f_equal.
  unfold persistEntries. by apply insert_id.
Qed.

Lemma first_visit_reachable : reachable ∅ first_visit.
Proof. by apply reachable_mount. Defined.

Lemma reachable_dispatch_all ls w evs :
  reachable ls w → reachable ls (dispatch_all w evs).
Proof.
  revert w. induction evs as [|ev evs IH]; intros w Hr; [done|].
  cbn [dispatch_all]. apply IH. by apply reachable_dispatch.
Defined.

Lemma editing_first_reachable : reachable ∅ editing_first.
Proof. apply reachable_dispatch_all, first_visit_reachable. Defined.

Lemma reload_restores_entries_witness :
  ∃ u,
    mount true (localStorage editing_first)
    = Some (mkWorld true (localStorage editing_first)
              (mkState false false u (entries (component editing_first))
                       (Form.Full Entry.empty) false None [])
              []).
Proof.
  exact (reload_restores_entries ∅ editing_first editing_first_reachable).
Defined.

(** X10. With nothing to load the component starts empty and does not
    throw: when there is no [window], or each of the two keys is missing or
    holds the empty string, the first render has no user, no entries, an
    empty form, and in a browser it stores the text of the empty array. *)
Theorem first_render_without_saved_data
  (window : bool) (ls : gmap string jsstring) :
  window = false
  ∨ (ls !! "user" = None ∨ ls !! "user" = Some [])
    ∧ (ls !! "journalEntries" = None ∨ ls !! "journalEntries" = Some []) →
  loadSavedEntries window ls = Some (JArr [])
  ∧ loadSavedUser window ls = Some JNull
  ∧ mount window ls
    = Some (mkWorld window
              (if window then <["journalEntries" := js "[]"]> ls else ls)
              (mkState false false None [] (Form.Full Entry.empty) false None
                       [])
              []).
Proof.
  intros Hcase.
  assert (loadSavedEntries window ls = Some (JArr [])
          ∧ loadSavedUser window ls = Some JNull) as [He Hu].
  { unfold loadSavedEntries, loadSavedUser.
    destruct Hcase as [->|[[Hu|Hu] [He|He]]]; [done|..];
      destruct window; by rewrite ?Hu, ?He. }
  split_and!; [done..|]. unfold mount. rewrite He, Hu. by destruct window.
Qed.

Lemma first_render_without_saved_data_witness :
  mount true ∅ = Some first_visit.
Proof.
  refine (proj2 (proj2 (first_render_without_saved_data true ∅ _))).
  right. split; by left.
Defined.

(** ** Autocomplete *)

(** X11. [fetchSuggestions] makes exactly one request, to the endpoint with
    the query appended as it is (not URL-encoded), and changes neither state
    nor storage.  It returns suggestions exactly when the request resolves,
    the response is ok and its body reads as suggestions; otherwise it
    throws. *)
Theorem fetchSuggestions_outcome
  (query : jsstring) (net : Exn Response) (r : Run) :
  let result := fst (fetchSuggestions query net r) in
  let r' := snd (fetchSuggestions query net r) in
  pending r' = pending r
  ∧ storage r' = storage r
  ∧ entriesSet r' = entriesSet r
  ∧ trace r'
    = trace r ++ [Fetch (js "https://api.example.com/suggestions?query=" ++ query)]
  ∧ (∀ found,
       result = Ok found
       ↔ ∃ response,
           net = Ok response ∧ ok response = true ∧ json response = Ok found)
  ∧ ((∃ err, net = Throw err) ∨ (∃ response, net = Ok response ∧ ok response = false)
     → ∃ err, result = Throw err).
Proof.
  intros result r'. subst result r'. split_and!.
  - by destruct net as [[[] [found|err]]|err].
  - by destruct net as [[[] [found|err]]|err].
  - by destruct net as [[[] [found|err]]|err].
  - by destruct net as [[[] [found|err]]|err].
  - intros found'. split.
    + destruct net as [[[] [found|err]]|err]; cbn -[js app]; intros [= <-].
      by eexists.
    + intros (response & -> & Hok & Hjson). destruct response as [o j].
      cbn in Hok, Hjson. by subst.
  - intros [[err ->]|(response & -> & Hok)].
    + by eexists.
    + destruct response as [o j]. cbn in Hok. subst. by eexists.
Qed.

Lemma fetchSuggestions_outcome_witness :
  ∃ err,
    fst (fetchSuggestions kyoto_shi_ja (Ok {| ok := false; json := Ok [] |})
           (start creating))
    = Throw err.
Proof.
  refine (proj2 (proj2 (proj2 (proj2 (proj2
            (fetchSuggestions_outcome kyoto_shi_ja _ (start creating)))))) _).
  right. by eexists.
Defined.

(** ** The form *)

(** X12. [handleLocationChange] builds the form from the [newEntry] of its
    render, [handleImageUpload] from the form as queued.  When both run
    before React renders again, the order matters: an image that loaded
    first is overwritten by the location change, while an image that loads
    after it is kept next to the new location. *)
Theorem location_change_overwrites_queued_image
  (w : World) (value : jsstring) (net : Exn Response) (img : option jsstring) :
  let s := component w in
  newEntry (pending (run w (batch (handleImageUpload s img)
                                  (handleLocationChange s value net))))
  = Form.with_location (newEntry s) value
  ∧ newEntry (pending (run w (batch (handleLocationChange s value net)
                                    (handleImageUpload s img))))
    = Form.with_image (Form.with_location (newEntry s) value) img.
Proof.
  intros s. subst s. unfold run, batch, handleLocationChange, fetchSuggestions.
  destruct (2 <? length value)%nat; [|done].
  by destruct net as [[[] [found|err]]|err].
Qed.

(** X21. Typing a location and loading an image each write one property of
    the form and keep the other, whatever the form holds: after
    [handleLocationChange] the form has the typed value as [location] and
    the [image] it had, after [handleImageUpload] it has the loaded image and
    the [location] it had.  A form that holds an entry holds that entry with
    the one field replaced; a form that does not hold an entry does not
    become one. *)
Theorem form_handlers_write_one_property
  (w : World) (value : jsstring) (net : Exn Response) (img : option jsstring) :
  let s := component w in
  let typed := newEntry (pending (run w (handleLocationChange s value net))) in
  let loaded := newEntry (pending (run w (handleImageUpload s img))) in
  Form.location typed = Some value
  ∧ Form.image typed = Form.image (newEntry s)
  ∧ Form.image loaded = Some img
  ∧ Form.location loaded = Form.location (newEntry s)
  ∧ Form.is_full typed = Form.is_full (newEntry s)
  ∧ Form.is_full loaded = Form.is_full (newEntry s)
  ∧ (∀ e, newEntry s = Form.Full e →
       typed = Form.Full (Entry.with_location e value)
       ∧ loaded = Form.Full (Entry.with_image e img)).
Proof.
  intros s typed loaded.
  assert (typed = Form.with_location (newEntry s) value) as ->.
  { unfold typed, run, handleLocationChange, fetchSuggestions.
    destruct (2 <? length value)%nat; [|done].
    by destruct net as [[[] [found|err]]|err]. }
  assert (loaded = Form.with_image (newEntry s) img) as -> by done.
  destruct (newEntry s) as [|l i|e]; split_and!; try done;
    by intros e' [= <-].
Qed.

Lemma form_handlers_write_one_property_witness :
  Form.image
    (newEntry (pending (run stray_edit
                          (handleImageUpload (component stray_edit)
                             (Some (js "data:image/png;base64,AAAA"))))))
  = Some (Some (js "data:image/png;base64,AAAA"))
  ∧ newEntry (pending (run creating
                         (handleImageUpload (component creating) None)))
    = Form.Full (Entry.with_image draft None).
Proof.
  split.
  - destruct (form_handlers_write_one_property stray_edit []
                (Throw "offline") (Some (js "data:image/png;base64,AAAA")))
      as (_ & _ & Himage & _).
    exact Himage.
  - destruct (form_handlers_write_one_property creating []
                (Throw "offline") None)
      as (_ & _ & _ & _ & _ & _ & Hfull).
    exact (proj2 (Hfull draft eq_refl)).
Defined.

Lemma dispatch_changes (w : World) (ev : Event) (w' : World) :
  dispatch w ev = w' →
  (entries (component w') ≠ entries (component w) →
   (∃ now, ev = Submit now) ∨ (∃ index, ev = DeleteEntry index true))
  ∧ (user (component w') ≠ user (component w) →
     ev = Logout ∨ ∃ userData, ev = AuthSuccess userData)
  ∧ (suggestions (component w') ≠ suggestions (component w) →
     (∃ value net, ev = LocationChange value net) ∨ ∃ now, ev = Submit now)
  ∧ (editMode (component w') ≠ editMode (component w)
     ∨ editIndex (component w') ≠ editIndex (component w) →
     (∃ now, ev = Submit now) ∨ ∃ index, ev = EditEntry index).
Proof.
  unfold dispatch. intros <-. rewrite !commit_component.
  assert (∀ value net,
            let r := run w (handleLocationChange (component w) value net) in
            entries (pending r) = entries (component w)
            ∧ user (pending r) = user (component w)
            ∧ editMode (pending r) = editMode (component w)
            ∧ editIndex (pending r) = editIndex (component w)) as Hlocation.
  { intros value net. unfold run, handleLocationChange, fetchSuggestions.
    destruct (2 <? length value)%nat; [|done].
    by destruct net as [[[] [found|err]]|err]. }
  assert (∀ now,
            user (pending (run w (handleSubmit (component w) now)))
            = user (component w)) as Hsubmit.
  { intros now. unfold run, handleSubmit. cbn.
    destruct (newEntry (component w)) as [|l i|form]; [done..|].
    destruct (negb _ || negb _ || negb _); [done|].
    by destruct (editMode _), (editIndex _). }
  destruct ev; cbn [handler];
    try match goal with answer : bool |- _ => destruct answer end;
    split_and!; intros Hne;
    try (left; by eauto); try (right; by eauto); exfalso;
    try (destruct Hne as [Hne|Hne]); apply Hne; clear Hne;
    try done;
    try apply Hlocation; try apply Hsubmit.
Qed.

(** X13. Each part of the state has its own handlers.  Along any event, the
    entries change only on a submission or a confirmed deletion, the user
    only on logout or login, the suggestions only on a location change or a
    submission, and [editMode] and [editIndex] only on a submission or on
    opening an entry for editing. *)
Theorem state_changes_by_handler (w : World) (ev : Event) (w' : World) :
  dispatch w ev = w' →
  (entries (component w') ≠ entries (component w) →
   (∃ now, ev = Submit now) ∨ (∃ index, ev = DeleteEntry index true))
  ∧ (user (component w') ≠ user (component w) →
     ev = Logout ∨ ∃ userData, ev = AuthSuccess userData)
  ∧ (suggestions (component w') ≠ suggestions (component w) →
     (∃ value net, ev = LocationChange value net) ∨ ∃ now, ev = Submit now)
  ∧ (editMode (component w') ≠ editMode (component w)
     ∨ editIndex (component w') ≠ editIndex (component w) →
     (∃ now, ev = Submit now) ∨ ∃ index, ev = EditEntry index).
Proof. apply dispatch_changes. Qed.

Lemma state_changes_by_handler_witness :
  (∃ now, Submit 1712102400000 = Submit now)
  ∨ (∃ index, Submit 1712102400000 = DeleteEntry index true).
Proof.
  refine (proj1 (state_changes_by_handler creating (Submit 1712102400000) _
                   eq_refl) _).
  discriminate.
Defined.

(** ** Ids *)

(** X14. A created entry gets an [id] of its own when the clock has moved on:
    if the ids in the list are distinct and all earlier than [Date.now()],
    the ids after a creation are distinct too. *)
Theorem create_keeps_ids_distinct (w : World) (form : Entry.t) (now : Z) :
  editMode (component w) = false →
  newEntry (component w) = Form.Full form →
  Entry.title form ≠ [] →
  Entry.date form ≠ [] →
  Entry.location form ≠ [] →
  Forall (λ old, ∀ n, Entry.id old = Some n → (n < now)%Z)
         (entries (component w)) →
  NoDup (map Entry.id (entries (component w))) →
  NoDup (map Entry.id
           (entries (component (commit w (handleSubmit (component w) now))))).
Proof.
  intros Hmode Hform Ht Hd Hl Hold Hdup.
  rewrite commit_component, (handleSubmit_create w (component w) form now)
    by done.
  cbn [pending entries]. rewrite map_app. cbn [map Entry.with_id Entry.id].
  apply NoDup_app. split_and!; [done| |apply NoDup_singleton].
  intros x Hx Hnow. apply list_elem_of_singleton in Hnow as ->.
  apply list_elem_of_In, in_map_iff in Hx as (old & Hid & Hin).
  rewrite Forall_forall in Hold.
  apply list_elem_of_In in Hin. specialize (Hold old Hin now Hid). lia.
Qed.

Lemma create_keeps_ids_distinct_witness :
  NoDup (map Entry.id
           (entries (component (commit creating
                                  (handleSubmit (component creating)
                                     1712102400000))))).
Proof.
  refine (create_keeps_ids_distinct creating draft 1712102400000
            _ _ _ _ _ _ _);
    [reflexivity|reflexivity|discriminate..| |].
  - do 2 (constructor; [intros n [= <-]; lia|]). constructor.
  - by apply (bool_decide_unpack _).
Defined.

Lemma map_insert_same {A B} (f : A → B) (l : list A) (i : nat) (x y : A) :
  l !! i = Some y → f x = f y → map f (<[i := x]> l) = map f l.
Proof.
  revert i. induction l as [|z l IH]; intros [|i] Hi Hf; simplify_eq/=;
    f_equal; eauto.
Qed.

(** What the form events keep while an entry is open for editing. *)
Lemma form_event_keeps_edit w ev e :
  is_form_event ev = true →
  newEntry (component w) = Form.Full e →
  ∃ e', newEntry (component (dispatch w ev)) = Form.Full e'
        ∧ Entry.id e' = Entry.id e
        ∧ entries (component (dispatch w ev)) = entries (component w)
        ∧ editMode (component (dispatch w ev)) = editMode (component w)
        ∧ editIndex (component (dispatch w ev)) = editIndex (component w).
Proof.
  destruct ev; try done; intros _ Hform; unfold dispatch; cbn [handler];
    rewrite !commit_component.
  - exists (Entry.with_location e value).
    unfold run, handleLocationChange, fetchSuggestions. rewrite Hform.
    destruct (2 <? length value)%nat; [|done].
    by destruct net as [[[] [found|err]]|err].
  - exists (Entry.with_image e result).
    unfold run, handleImageUpload. cbn. by rewrite Hform.
  - exists (Entry.with_location e (description place)).
    unfold run, onSelectLocation. cbn. by rewrite Hform.
Qed.

Lemma form_events_keep_edit w evs e :
  forallb is_form_event evs = true →
  newEntry (component w) = Form.Full e →
  ∃ e', newEntry (component (dispatch_all w evs)) = Form.Full e'
        ∧ Entry.id e' = Entry.id e
        ∧ entries (component (dispatch_all w evs)) = entries (component w)
        ∧ editMode (component (dispatch_all w evs)) = editMode (component w)
        ∧ editIndex (component (dispatch_all w evs)) = editIndex (component w).
Proof.
  revert w e. induction evs as [|ev evs IH]; intros w e Hevs Hform.
  - by exists e.
  - cbn [forallb] in Hevs. apply andb_prop in Hevs as [Hev Hevs].
    destruct (form_event_keeps_edit w ev e Hev Hform)
      as (e1 & Hform1 & Hid1 & He1 & Hm1 & Hi1).
    destruct (IH (dispatch w ev) e1 Hevs Hform1)
      as (e2 & Hform2 & Hid2 & He2 & Hm2 & Hi2).
    exists e2. cbn [dispatch_all].
    split; [done|]. by rewrite Hid2, He2, Hm2, Hi2.
Qed.

(** X15. Editing keeps the ids.  Open an entry for editing, change the form
    by typing or picking a location or by uploading an image, any number of
    times, and submit: whether the submission passes the check or not, the
    entries have the ids they had, in the same order, and every entry but
    the one under edit is unchanged. *)
Theorem edit_keeps_ids
  (w : World) (i : nat) (entry : Entry.t) (evs : list Event) (now : Z) :
  entries (component w) !! i = Some entry →
  forallb is_form_event evs = true →
  let w1 := dispatch w (EditEntry (Z.of_nat i)) in
  let w2 := dispatch_all w1 evs in
  let w3 := dispatch w2 (Submit now) in
  map Entry.id (entries (component w3)) = map Entry.id (entries (component w))
  ∧ (∀ j, j ≠ i → entries (component w3) !! j = entries (component w) !! j).
Proof.
  intros Hi Hevs w1 w2 w3.
  pose proof (dispatch_EditEntry w i entry Hi) as Hw1. cbv zeta in Hw1.
  destruct (form_events_keep_edit w1 evs entry Hevs)
    as (e & Hform & Hid & He & Hm & Hindex);
    [unfold w1; by rewrite Hw1|].
  fold w2 in Hform, He, Hm, Hindex. unfold w1 in He, Hm, Hindex.
  rewrite Hw1 in He, Hm, Hindex. cbn [entries editMode editIndex] in *.
  clearbody w2. unfold w3, dispatch. cbn [handler]. rewrite commit_component.
  destruct (check_cases e) as [Hvalid|Hinvalid].
  - rewrite (handleSubmit_edit w2 (component w2) e now (Z.of_nat i)) by done.
    cbn [pending entries]. rewrite imap_replace, He. split.
    + by apply (map_insert_same Entry.id _ i _ entry).
    + intros j Hj. by apply list_lookup_insert_ne.
  - rewrite (handleSubmit_invalid w2 (component w2) e now) by done.
    cbn [pending]. by rewrite He.
Qed.

Lemma edit_keeps_ids_witness :
  map Entry.id
    (entries (component
       (dispatch
          (dispatch_all (dispatch creating (EditEntry 1))
             [SelectLocation {| place_id := 7; description := js "Osaka, Japan" |};
              ImageLoaded (Some (js "data:image/png;base64,AAAA"))])
          (Submit 1712102400000))))
  = map Entry.id [kyoto; nara].
Proof.
  exact (proj1 (edit_keeps_ids creating 1 nara
                  [SelectLocation
                     {| place_id := 7; description := js "Osaka, Japan" |};
                   ImageLoaded (Some (js "data:image/png;base64,AAAA"))]
                  1712102400000 eq_refl eq_refl)).
Defined.

(** ** Edit mode *)

Lemma dispatch_edit_coherent w ev :
  (editMode (component w) = true
   ↔ ∃ index, editIndex (component w) = Some index) →
  (editMode (component (dispatch w ev)) = true
   ↔ ∃ index, editIndex (component (dispatch w ev)) = Some index).
Proof.
  intros Hc. set (w' := dispatch w ev).
  assert ((∃ now, ev = Submit now) ∨ (∃ index, ev = EditEntry index)
          ∨ editMode (component w') = editMode (component w)
            ∧ editIndex (component w') = editIndex (component w))
    as [[now Hev]|[[index Hev]|[Hm Hi]]].
  { destruct (dispatch_changes w ev w' eq_refl) as (_ & _ & _ & Hedit).
    destruct (decide (editMode (component w') = editMode (component w)))
      as [Hm|Hm]; [|destruct Hedit as [?|?]; auto].
    destruct (decide (editIndex (component w') = editIndex (component w)))
      as [Hi|Hi]; [|destruct Hedit as [?|?]; auto].
    auto. }
  - unfold w', dispatch. rewrite Hev. cbn [handler]. rewrite commit_component.
    unfold run, handleSubmit. cbn.
    destruct (newEntry (component w)) as [|l i|form]; [done..|].
    destruct (negb _ || negb _ || negb _); [done|].
    destruct (editMode _), (editIndex _); cbn;
      (split; [done|]); by intros [index ?].
  - unfold w', dispatch. rewrite Hev. cbn. split; [|done]. by exists index.
  - by rewrite Hm, Hi.
Qed.

(** X16. Edit mode and the index under edit go together: in every state the
    component reaches, [editMode] is true exactly when [editIndex] holds an
    index.  So the test [editIndex !== null] of [handleSubmit] never
    decides: a submission that passes the check creates when [editMode] is
    false and writes at the recorded index otherwise.  The index need not be
    one of the list. *)
Theorem edit_mode_has_index (ls : gmap string jsstring) (w : World) :
  reachable ls w →
  (editMode (component w) = true
   ↔ ∃ index, editIndex (component w) = Some index)
  ∧ editMode (component w) && bool_decide (editIndex (component w) ≠ None)
    = editMode (component w).
Proof.
  intros Hr.
  assert (editMode (component w) = true
          ↔ ∃ index, editIndex (component w) = Some index) as Hc.
  { induction Hr as [w Hm|w ev Hr IH].
    - destruct (mount_inv _ _ _ Hm) as (u & es & _ & _ & ->). cbn.
      split; [done|]. by intros [index ?].
    - by apply dispatch_edit_coherent. }
  split; [done|].
  destruct (editMode (component w)); [|done].
  destruct (proj1 Hc eq_refl) as [index ->]. done.
Qed.

Lemma edit_mode_has_index_witness :
  ∃ index, editIndex (component editing_first) = Some index.
Proof.
  exact (proj1 (proj1 (edit_mode_has_index ∅ editing_first
                         editing_first_reachable))
           eq_refl).
Defined.

(** ** The sign-in card *)

(** X17. Opening the login or the sign-up form and closing it again is a
    round trip.  With no user and neither page chosen, the card shows the
    heading and the two buttons and no [AuthForm]; either button puts the
    [AuthForm] on the card in place of the buttons, in login mode for the
    first button only, and [onClose] brings back the state and so the card
    of before.  None of the three touches the entries, the form or the
    storage. *)
Theorem auth_form_opens_and_closes (w : World) :
  user (component w) = None →
  isLoginPage (component w) = false →
  isSignUpPage (component w) = false →
  let login := commit w (onClickLogin (component w)) in
  let signup := commit w (onClickSignUp (component w)) in
  TravelJournal (component w)
  = Div [Div [Div [H1 "Virtual Travel Journal";
                   Div [Button "ログイン"; Button "新規登録"]]]]
  ∧ shows is_AuthForm (TravelJournal (component w)) = false
  ∧ TravelJournal (component login)
    = Div [Div [Div [H1 "Virtual Travel Journal"; AuthForm true]]]
  ∧ TravelJournal (component signup)
    = Div [Div [Div [H1 "Virtual Travel Journal"; AuthForm false]]]
  ∧ component (commit login (onClose (component login))) = component w
  ∧ component (commit signup (onClose (component signup))) = component w
  ∧ localStorage (commit login (onClose (component login))) = localStorage w
  ∧ localStorage (commit signup (onClose (component signup))) = localStorage w.
Proof.
  intros Hu Hl Hs login signup. subst login signup.
  destruct w as [win ls [l s u es e m i sg] fx]. cbn in Hu, Hl, Hs. subst.
  by split_and!.
Qed.

Lemma auth_form_opens_and_closes_witness :
  TravelJournal (component first_visit)
  = Div [Div [Div [H1 "Virtual Travel Journal";
                   Div [Button "ログイン"; Button "新規登録"]]]]
  ∧ TravelJournal
      (component (commit first_visit (onClickLogin (component first_visit))))
    = Div [Div [Div [H1 "Virtual Travel Journal"; AuthForm true]]].
Proof.
  split.
  - refine (proj1 (auth_form_opens_and_closes first_visit _ _ _));
      reflexivity.
  - refine (proj1 (proj2 (proj2 (auth_form_opens_and_closes first_visit
                                   _ _ _))));
      reflexivity.
Defined.

(** ** The stored user *)

(** X18. A user stored as JSON under ["user"] is signed in at the first
    render: [loadSavedUser] reads back the user whose text was stored, so a
    first render that succeeds starts on the journal and not on the sign-in
    card. *)
Theorem stored_user_is_signed_in
  (ls : gmap string jsstring) (userData : User) :
  ls !! "user" = Some (JSON_stringify (User_to_js userData)) →
  loadSavedUser true ls = Some (User_to_js userData)
  ∧ loadSavedUser true ls ≫= User_of_js = Some (Some userData)
  ∧ ∀ w, mount true ls = Some w →
         user (component w) = Some userData
         ∧ TravelJournal (component w) = renderMainContent (component w).
Proof.
  intros Hls.
  assert (loadSavedUser true ls = Some (User_to_js userData)) as Hload.
  { unfold loadSavedUser. rewrite Hls.
    change (truthy (JSON_stringify (User_to_js userData))) with true.
    cbn iota. by apply JSON_parse_stringify. }
  assert (User_of_js (User_to_js userData) = Some (Some userData)) as Hview.
  { by destruct userData. }
  split_and!; [done|by rewrite Hload|].
  intros w Hm. destruct (mount_inv _ _ _ Hm) as (u & es & Hu & _ & ->).
  rewrite Hload in Hu. cbn [mbind option_bind] in Hu. rewrite Hview in Hu.
  by simplify_eq.
Qed.

Lemma stored_user_is_signed_in_witness :
  loadSavedUser true {["user" := JSON_stringify (User_to_js traveller)]}
    ≫= User_of_js
  = Some (Some traveller).
Proof.
  refine (proj1 (proj2 (stored_user_is_signed_in
            {["user" := JSON_stringify (User_to_js traveller)]} traveller _)));
    reflexivity.
Defined.

(** ** Images *)

(** X19. What the file reader hands over ends up in the created entry:
    after [handleImageUpload] and a valid submission outside edit mode, the
    new last entry is the form with that image and the [id] of the clock,
    and in a browser it is in the stored text.  A read that failed hands
    over [null] and so clears an image chosen before. *)
Theorem uploaded_image_is_saved
  (w : World) (form : Entry.t) (img : option jsstring) (now : Z) :
  editMode (component w) = false →
  newEntry (component w) = Form.Full form →
  Entry.title form ≠ [] →
  Entry.date form ≠ [] →
  Entry.location form ≠ [] →
  let s := component w in
  let w1 := commit w (handleImageUpload s img) in
  let w2 := commit w1 (handleSubmit (component w1) now) in
  let created := Entry.with_id (Entry.with_image form img) now in
  entries (component w2) = entries s ++ [created]
  ∧ Entry.image created = img
  ∧ (window_defined w = true →
     localStorage w2 !! "journalEntries"
     = Some (JSON_stringify (entries_to_js (entries s ++ [created])))).
Proof.
  intros Hmode Hform Ht Hd Hl s w1 w2 created.
  assert (newEntry (component w1) = Form.Full (Entry.with_image form img))
    as Hform1.
  { unfold w1, s. rewrite commit_component. unfold run, handleImageUpload.
    cbn. by rewrite Hform. }
  assert (run w1 (handleSubmit (component w1) now)
          = mkRun (mkState (isLoginPage s) (isSignUpPage s) (user s)
                           (entries s ++ [created]) (Form.Full Entry.empty)
                           false None [])
                  (localStorage w) true [PreventDefault]) as Hrun.
  { by rewrite (handleSubmit_create w1 (component w1)
                  (Entry.with_image form img) now). }
  assert (entries (component w2) = entries s ++ [created]) as Hw2.
  { unfold w2. by rewrite commit_component, Hrun. }
  split_and!; [done..|].
  intros Hwin. rewrite <-Hw2. apply (commit_persisted w1); [done|].
  by rewrite Hrun.
Qed.

Lemma uploaded_image_is_saved_witness :
  entries (component
    (commit (commit creating
               (handleImageUpload (component creating)
                  (Some (js "data:image/png;base64,AAAA"))))
       (handleSubmit
          (component (commit creating
                        (handleImageUpload (component creating)
                           (Some (js "data:image/png;base64,AAAA")))))
          1712102400000)))
  = [kyoto; nara;
     Entry.with_id
       (Entry.with_image draft (Some (js "data:image/png;base64,AAAA")))
       1712102400000].
Proof.
  refine (proj1 (uploaded_image_is_saved creating draft _ 1712102400000
                   _ _ _ _ _));
    [reflexivity|reflexivity|discriminate..].
Defined.

(** ** A form that is not an entry *)

(** The form events of this component add [location] and [image] to the
    object in the form and nothing else; they leave the entries and the
    storage alone. *)
Lemma form_event_keeps_stray w ev :
  is_form_event ev = true →
  Form.is_full (newEntry (component (dispatch w ev)))
  = Form.is_full (newEntry (component w))
  ∧ newEntry (component (dispatch w ev)) ≠ Form.Undefined
  ∧ entries (component (dispatch w ev)) = entries (component w)
  ∧ localStorage (dispatch w ev) = localStorage w.
Proof.
  destruct ev; try done; intros _; unfold dispatch, commit; cbn [handler].
  - unfold run, handleLocationChange, fetchSuggestions.
    destruct (2 <? length value)%nat;
      [destruct net as [[[] [found|err]]|err]|];
      by destruct (newEntry (component w)).
  - unfold run, handleImageUpload. cbn.
    by destruct (newEntry (component w)).
  - unfold run, onSelectLocation. cbn.
    by destruct (newEntry (component w)).
Qed.

Lemma form_events_keep_stray w evs :
  forallb is_form_event evs = true →
  Form.is_full (newEntry (component (dispatch_all w evs)))
  = Form.is_full (newEntry (component w))
  ∧ (evs ≠ [] → newEntry (component (dispatch_all w evs)) ≠ Form.Undefined)
  ∧ entries (component (dispatch_all w evs)) = entries (component w)
  ∧ localStorage (dispatch_all w evs) = localStorage w.
Proof.
  revert w. induction evs as [|ev evs IH]; intros w Hevs; [done|].
  cbn [forallb] in Hevs. apply andb_prop in Hevs as [Hev Hevs].
  destruct (form_event_keeps_stray w ev Hev) as (Hf1 & Hu1 & He1 & Hs1).
  destruct (IH (dispatch w ev) Hevs) as (Hf2 & Hu2 & He2 & Hs2).
  cbn [dispatch_all]. rewrite Hf2, He2, Hs2. split_and!; [done| |done..].
  intros _. destruct evs as [|ev' evs]; [done|]. by apply Hu2.
Qed.

(** X20. Once the form holds something that is not an entry, which is what
    [handleEditEntry] leaves for an index outside the list, nothing this
    component does to the form by itself makes it an entry again, and no
    submission saves it.  After any number of location changes, picked
    suggestions and image uploads the form is still not an entry, the
    entries and the storage are as before, and a submission changes neither
    the state nor the storage: it throws a [TypeError] when the form is still
    [undefined], that is when no such event came in between, and shows the
    alert of the required fields otherwise. *)
Theorem stray_form_is_never_saved (w : World) (evs : list Event) (now : Z) :
  Form.is_full (newEntry (component w)) = false →
  forallb is_form_event evs = true →
  let w1 := dispatch_all w evs in
  let w2 := dispatch w1 (Submit now) in
  Form.is_full (newEntry (component w1)) = false
  ∧ entries (component w1) = entries (component w)
  ∧ localStorage w1 = localStorage w
  ∧ component w2 = component w1
  ∧ localStorage w2 = localStorage w1
  ∧ (newEntry (component w) = Form.Undefined → evs = [] →
     effects w2 = effects w1 ++ [PreventDefault; Uncaught "TypeError"])
  ∧ (evs ≠ [] →
     effects w2
     = effects w1
       ++ [PreventDefault; Alert "タイトル、日付、場所は必須項目です。"]).
Proof.
  intros Hstray Hevs w1 w2.
  destruct (form_events_keep_stray w evs Hevs) as (Hf & Hu & He & Hs).
  fold w1 in Hf, Hu, He, Hs. rewrite Hstray in Hf.
  assert (run w1 (handleSubmit (component w1) now)
          = mkRun (component w1) (localStorage w1) false
              [PreventDefault;
               match newEntry (component w1) with
               | Form.Undefined => Uncaught "TypeError"
               | _ => Alert "タイトル、日付、場所は必須項目です。"
               end]) as Hrun.
  { apply handleSubmit_stray; [done|]. intros form Hform.
    by rewrite Hform in Hf. }
  unfold w2, dispatch, commit. cbn [handler]. rewrite Hrun.
  cbn [component localStorage effects pending storage entriesSet trace].
  split_and!; try done.
  - intros Hundefined ->. unfold w1. cbn [dispatch_all]. by rewrite Hundefined.
  - intros Hne. specialize (Hu Hne).
    by destruct (newEntry (component w1)).
Qed.

Lemma stray_form_is_never_saved_witness :
  component (dispatch stray_edit (Submit 1712102400000)) = component stray_edit
  ∧ entries (component
      (dispatch
         (dispatch_all stray_edit
            [LocationChange (js "Os") (Throw "offline");
             ImageLoaded (Some (js "data:image/png;base64,AAAA"))])
         (Submit 1712102400000)))
    = [kyoto; nara].
Proof.
  split.
  - exact (proj1 (proj2 (proj2 (proj2
             (stray_form_is_never_saved stray_edit [] 1712102400000
                eq_refl eq_refl))))).
  - destruct (stray_form_is_never_saved stray_edit
                [LocationChange (js "Os") (Throw "offline");
                 ImageLoaded (Some (js "data:image/png;base64,AAAA"))]
                1712102400000 eq_refl eq_refl)
      as (_ & He & _ & Hc & _).
    cbv zeta in He, Hc. rewrite Hc. exact He.
Defined.

(** X22. A submission goes through exactly when the form holds an entry
    whose title, date and location are not empty: then, and only then,
    [handleSubmit] calls [setEntries] and resets the form.  In every other
    case, which are an entry with an empty required field, an object without
    [title], and [undefined], it leaves state and storage as they are. *)
Theorem submit_saves_exactly_valid_entries (w : World) (now : Z) :
  let r := run w (handleSubmit (component w) now) in
  (entriesSet r = true
   ↔ ∃ form, newEntry (component w) = Form.Full form ∧ valid form)
  ∧ (entriesSet r = true → newEntry (pending r) = Form.Full Entry.empty)
  ∧ (entriesSet r = false →
     pending r = component w ∧ storage r = localStorage w).
Proof.
  intros r. subst r.
  destruct (newEntry (component w)) as [|l i|form] eqn:Hform.
  - rewrite (handleSubmit_stray w (component w) now eq_refl)
      by (intros form; by rewrite Hform).
    split_and!; [|done..]. split; [done|]. by intros (form & ? & _).
  - rewrite (handleSubmit_stray w (component w) now eq_refl)
      by (intros form; by rewrite Hform).
    split_and!; [|done..]. split; [done|]. by intros (form & ? & _).
  - destruct (check_cases form) as [Hvalid|Hinvalid].
    + assert (entriesSet (run w (handleSubmit (component w) now)) = true
              ∧ newEntry (pending (run w (handleSubmit (component w) now)))
                = Form.Full Entry.empty) as [Hset Hreset].
      { unfold run, handleSubmit. rewrite Hform. cbn.
        rewrite (valid_check form Hvalid).
        by destruct (editMode _), (editIndex _). }
      rewrite Hset. split_and!; [|done..]. split; [|done]. by exists form.
    + rewrite (handleSubmit_invalid w (component w) form now) by done.
      split_and!; [|done..]. split; [done|].
      intros (form' & [= <-] & Ht & Hd & Hl).
      by destruct Hinvalid as [?|[?|?]].
Qed.
